(** * A bounded pool of reusable resources (package [pool], channel.go)

    Shallow embedding of [channelPool] and of its five operations, together
    with the constructor [NewChannelPool].

    Modelling choices.
    - The model is sequential: one call runs to its end before the next one
      starts, so the mutex [mu] is not represented.
    - An [interface{}] value is [value]: the nil interface, a value made by
      the caller, or a [*idleConn] (the pool passes such pointers to the
      destroy behaviour in two places).
    - The caller's behaviours are deterministic functions of the history of
      the behaviour calls made so far; a nil [func] is [None], and calling it
      panics.  A behaviour that is not nil comes back from every call and
      does not call back into the pool: behaviours that panic, block or
      re-enter the pool are outside the model.
    - [time.Now()] is an oracle [clock]: its n-th reading is [clock n].
      Times and durations are integers (nanoseconds); [Add] is [+] and
      [Before] is [<].
    - A buffered channel is its queue, its capacity and its closed flag.
      [make] comes back for capacities from 0 to [max_chan], a bound set
      by the platform, and panics beyond it.
    - A Go call ends in a return, a panic, or a blocked goroutine. *)

From Stdlib Require Import ZArith List String Bool Lia.
Import ListNotations.
Local Open Scope Z_scope.

(** ** Go values shared by the whole package *)

(** [error] values: the package variable [ErrClose], an error made on the
    spot by [errors.New], or an error coming out of a caller's behaviour. *)
Inductive error : Type :=
| ErrClose
| ErrorsNew (msg : string)
| ErrCaller (code : Z).

(** How a call ends. *)
Inductive result (A : Type) : Type :=
| Ret (a : A)
| Panic (msg : string)
| Deadlock.
Arguments Ret {A} a.
Arguments Panic {A} msg.
Arguments Deadlock {A}.

Definition nil_func_call : string :=
  "invalid memory address or nil pointer dereference"%string.

Section Pool.

(** The caller's resource type, and the wall clock. *)
Context {R : Type}.
Variable clock : nat -> Z.

(** The largest capacity for which [make(chan *idleConn, n)] comes back on
    the platform at hand: beyond it the runtime refuses the buffer (on a
    64-bit platform, when its size in bytes passes the largest allocation
    less the channel header). *)
Variable max_chan : Z.

Inductive value : Type :=
| VNil
| VRes (r : R)
| VIdle (conn : value) (t : Z).

(** [type idleConn struct { conn interface{}; t time.Time }] *)
Record idleConn : Type := { conn : value; t : Z }.

(** A [*idleConn] stored in an [interface{}]. *)
Definition as_value (w : idleConn) : value := VIdle (conn w) (t w).

(** One call of a caller's behaviour, with what it was given and what it
    answered. *)
Inductive event : Type :=
| Constructed (v : value) (e : option error)
| Destroyed (arg : value) (e : option error).

Definition factoryT : Type := list event -> value * option error.
Definition closeT : Type := list event -> value -> option error.
Definition aliveT : Type := list event -> option error.

(** [type Config struct] *)
Record Config : Type := {
  InitCap : Z;
  MaxCap : Z;
  Factory : option factoryT;
  Close : option closeT;
  Alive : option aliveT;
  IdleTimeout : Z
}.

(** [chan *idleConn]: every pointer sent is non-nil, so the queue holds the
    pointed records. *)
Record chan : Type := { buf : list idleConn; cap : Z; closed : bool }.

Definition with_buf (ch : chan) (q : list idleConn) : chan :=
  {| buf := q; cap := cap ch; closed := closed ch |}.

(** [type channelPool struct]; a nil channel is [None]. *)
Record channelPool : Type := {
  conns : option chan;
  factory : option factoryT;
  close : option closeT;
  alive : option aliveT;
  idleTimeout : Z
}.

(** What lies outside the pool: the readings of the clock taken so far and
    the behaviour calls made so far, oldest first. *)
Record world : Type := { ticks : nat; calls : list event }.

Record state : Type := { self : channelPool; wld : world }.

(** ** The monad of pool code: state, panics and blocking *)

Definition M (A : Type) : Type := state -> result (A * state).

Definition ret {A : Type} (a : A) : M A := fun s => Ret (a, s).

Definition bind {A B : Type} (m : M A) (k : A -> M B) : M B :=
  fun s =>
    match m s with
    | Ret (a, s') => k a s'
    | Panic msg => Panic msg
    | Deadlock => Deadlock
    end.

Notation "x <- m ;; k" := (bind m (fun x => k))
  (at level 61, m at next level, right associativity).
Notation "m ;;; k" := (bind m (fun _ => k))
  (at level 61, right associativity).

Definition panic {A : Type} (msg : string) : M A := fun _ => Panic msg.
Definition block {A : Type} : M A := fun _ => Deadlock.

Definition get_pool : M channelPool := fun s => Ret (self s, s).

(** [p] with its channel field set to [c]. *)
Definition with_conns (p : channelPool) (c : option chan) : channelPool :=
  {| conns := c;
     factory := factory p;
     close := close p;
     alive := alive p;
     idleTimeout := idleTimeout p |}.

Definition set_conns (c : option chan) : M unit :=
  fun s => Ret (tt, {| self := with_conns (self s) c; wld := wld s |}).

Definition record (ev : event) (s : state) : state :=
  {| self := self s;
     wld := {| ticks := ticks (wld s); calls := calls (wld s) ++ [ev] |} |}.

(** [time.Now()] *)
Definition time_Now : M Z :=
  fun s =>
    Ret (clock (ticks (wld s)),
         {| self := self s;
            wld := {| ticks := S (ticks (wld s)); calls := calls (wld s) |} |}).

(** [f()] for a construct behaviour [f]. *)
Definition call_factory (f : option factoryT) : M (value * option error) :=
  match f with
  | None => panic nil_func_call
  | Some g =>
      fun s =>
        let r := g (calls (wld s)) in
        Ret (r, record (Constructed (fst r) (snd r)) s)
  end.

(** [f(arg)] for a destroy behaviour [f]. *)
Definition call_close (f : option closeT) (arg : value) : M (option error) :=
  match f with
  | None => panic nil_func_call
  | Some g =>
      fun s =>
        let e := g (calls (wld s)) arg in
        Ret (e, record (Destroyed arg e) s)
  end.

(** ** channel.go *)

(** [func (cPool *channelPool) getConns() chan *idleConn] *)
Definition getConns : M (option chan) :=
  p <- get_pool ;; ret (conns p).

(** The [for { select { ... } }] of [Get], run on the channel [ch] whose
    queue is [pending].  Every turn either returns or has taken one entry out
    of the queue, so the recursion is on the queue.
    - [case wrapConn := <-conns] fires when the queue has an entry, and on
      a closed and empty channel, where it receives nil;
    - [default] fires otherwise. *)
Fixpoint Get_loop (pending : list idleConn) (ch : chan)
  : M (value * option error) :=
  match pending with
  | wrapConn :: rest =>
      set_conns (Some (with_buf ch rest)) ;;;
      p <- get_pool ;;
      let timeOut := idleTimeout p in
      if 0 <? timeOut then
        now <- time_Now ;;
        if t wrapConn + timeOut <? now then
          call_close (close p) (as_value wrapConn) ;;;
          Get_loop rest ch
        else ret (conn wrapConn, None)
      else ret (conn wrapConn, None)
  | [] =>
      if closed ch then ret (VNil, Some ErrClose)
      else
        p <- get_pool ;;
        r <- call_factory (factory p) ;;
        match snd r with
        | Some err => ret (VNil, Some err)
        | None => ret (fst r, None)
        end
  end.

(** [func (cPool *channelPool) Get() (interface{}, error)] *)
Definition Get : M (value * option error) :=
  c <- getConns ;;
  match c with
  | None => ret (VNil, Some ErrClose)
  | Some ch => Get_loop (buf ch) ch
  end.

(** [func (cPool *channelPool) Close(conn interface{}) error] *)
Definition poolClose (c : value) : M (option error) :=
  match c with
  | VNil => ret (Some (ErrorsNew "conn is nil"))
  | _ => p <- get_pool ;; call_close (close p) c
  end.

(** [func (cPool *channelPool) Put(conn interface{}) error].  The operands of
    the send case are evaluated on entering the [select], so the clock is
    read whether or not the entry is queued. *)
Definition Put (c : value) : M (option error) :=
  match c with
  | VNil => ret (Some (ErrorsNew "conn is now"))
  | _ =>
      p <- get_pool ;;
      match conns p with
      | None => poolClose c
      | Some ch =>
          now <- time_Now ;;
          if closed ch then panic "send on closed channel"
          else if Z.of_nat (List.length (buf ch)) <? cap ch then
            set_conns (Some (with_buf ch (buf ch ++ [{| conn := c; t := now |}]))) ;;;
            ret None
          else poolClose c
      end
  end.

(** [for wrapConn := range conns { closeFunc(wrapConn) }] on a closed
    channel: the entries left in the queue, in order. *)
Fixpoint drain (closeFunc : option closeT) (pending : list idleConn) : M unit :=
  match pending with
  | [] => ret tt
  | wrapConn :: rest =>
      call_close closeFunc (as_value wrapConn) ;;;
      drain closeFunc rest
  end.

(** [func (cPool *channelPool) Release()] *)
Definition Release : M unit :=
  p <- get_pool ;;
  let c := conns p in
  let closeFunc := close p in
  (fun s => Ret (tt, {| self := {| conns := None;
                                   factory := None;
                                   close := None;
                                   alive := alive p;
                                   idleTimeout := idleTimeout p |};
                        wld := wld s |})) ;;;
  match c with
  | None => panic "close of nil channel"
  | Some ch =>
      if closed ch then panic "close of closed channel"
      else drain closeFunc (buf ch)
  end.

(** [func (cPool *channelPool) Len() int] *)
Definition Len : M Z :=
  c <- getConns ;;
  match c with
  | None => ret 0
  | Some ch => ret (Z.of_nat (List.length (buf ch)))
  end.

(** [cPool.conns <- v], the blocking send of [NewChannelPool]. *)
Definition send (v : idleConn) : M unit :=
  p <- get_pool ;;
  match conns p with
  | None => block
  | Some ch =>
      if closed ch then panic "send on closed channel"
      else if Z.of_nat (List.length (buf ch)) <? cap ch then
        set_conns (Some (with_buf ch (buf ch ++ [v])))
      else block
  end.

(** The [for i := 0; i < poolConfig.InitCap; i++] of [NewChannelPool], with
    [todo] turns left.  It answers the error of the early return, if any. *)
Fixpoint New_loop (todo : nat) : M (option error) :=
  match todo with
  | O => ret None
  | S todo' =>
      p <- get_pool ;;
      r <- call_factory (factory p) ;;
      match snd r with
      | Some err => Release ;;; ret (Some err)
      | None =>
          now <- time_Now ;;
          send {| conn := fst r; t := now |} ;;;
          New_loop todo'
      end
  end.

(** [make(chan *idleConn, n)]: an open channel with an empty queue, or the
    panic of the runtime when [n] is negative or too large. *)
Definition make_chan (n : Z) : result chan :=
  if (n <? 0) || (max_chan <? n) then Panic "makechan: size out of range"
  else Ret {| buf := []; cap := n; closed := false |}.

Definition config_error : error :=
  ErrorsNew "poolConfig.InitCap or poolConfig.MaxCap is error".

(** [func NewChannelPool(poolConfig *Config) (Pool, error)], for a non-nil
    [poolConfig].  The channel is made before the first construct call.
    The field [alive] is not set by the constructor. *)
Definition NewChannelPool (poolConfig : Config) (w : world)
  : result ((option channelPool * option error) * world) :=
  if (InitCap poolConfig <=? 0) || (MaxCap poolConfig <=? 0)
     || (MaxCap poolConfig <? InitCap poolConfig)
  then Ret ((None, Some config_error), w)
  else
    match make_chan (MaxCap poolConfig) with
    | Ret ch =>
        let cPool := {| conns := Some ch;
                        factory := Factory poolConfig;
                        close := Close poolConfig;
                        alive := None;
                        idleTimeout := IdleTimeout poolConfig |} in
        match New_loop (Z.to_nat (InitCap poolConfig))
                {| self := cPool; wld := w |} with
        | Ret (Some err, s) => Ret ((None, Some err), wld s)
        | Ret (None, s) => Ret ((Some (self s), None), wld s)
        | Panic msg => Panic msg
        | Deadlock => Deadlock
        end
    | Panic msg => Panic msg
    | Deadlock => Deadlock
    end.

(** ** Sequences of calls on one pool *)

Inductive call : Type :=
| CallGet
| CallPut (c : value)
| CallClose (c : value)
| CallRelease
| CallLen.

(** One call of the [Pool] interface, its answer dropped. *)
Definition run (o : call) : M unit :=
  match o with
  | CallGet => Get ;;; ret tt
  | CallPut c => Put c ;;; ret tt
  | CallClose c => poolClose c ;;; ret tt
  | CallRelease => Release
  | CallLen => Len ;;; ret tt
  end.

Fixpoint run_all (os : list call) : M unit :=
  match os with
  | [] => ret tt
  | o :: os' => run o ;;; run_all os'
  end.

(** The states a caller can see: the pool as [NewChannelPool] hands it
    over, and the pool after any further call that came back. *)
Inductive reachable (poolConfig : Config) (w0 : world) : state -> Prop :=
| reach_New (p : channelPool) (w : world) :
    NewChannelPool poolConfig w0 = Ret ((Some p, None), w) ->
    reachable poolConfig w0 {| self := p; wld := w |}
| reach_call (s s' : state) (o : call) :
    reachable poolConfig w0 s ->
    run o s = Ret (tt, s') ->
    reachable poolConfig w0 s'.

(** ** Vocabulary of the statements *)

(** The pool has not been released. *)
Definition open_on (s : state) (ch : chan) : Prop :=
  conns (self s) = Some ch /\ closed ch = false.

(** The queue respects the capacity the channel was made with. *)
Definition within_cap (ch : chan) : Prop :=
  Z.of_nat (List.length (buf ch)) <= cap ch.

(** [Get]'s test on a dequeued entry, at the reading [now] of the clock. *)
Definition expired (timeOut : Z) (now : Z) (w : idleConn) : Prop :=
  0 < timeOut /\ t w + timeOut < now.

(** Every entry of [pre] is found expired by a [Get] that starts when the
    clock has been read [n] times. *)
Fixpoint all_expired (timeOut : Z) (n : nat) (pre : list idleConn) : Prop :=
  match pre with
  | [] => True
  | w :: pre' => expired timeOut (clock n) w /\ all_expired timeOut (S n) pre'
  end.

(** The readings of the clock a [Get] takes while it looks at [k] entries. *)
Definition looks (timeOut : Z) (k : nat) : nat :=
  if 0 <? timeOut then k else O.

Definition is_destroy (ev : event) : Prop :=
  match ev with
  | Destroyed _ _ => True
  | Constructed _ _ => False
  end.

Definition is_built (ev : event) : Prop :=
  match ev with
  | Constructed _ None => True
  | _ => False
  end.

(** The calls [g] receives when it is handed the entries of [q] one after
    the other, after the history [hist]. *)
Fixpoint destroy_calls (g : closeT) (hist : list event) (q : list idleConn)
  : list event :=
  match q with
  | [] => []
  | w :: q' =>
      let ev := Destroyed (as_value w) (g hist (as_value w)) in
      ev :: destroy_calls g (hist ++ [ev]) q'
  end.

(** [s] once a [Get] has thrown away the entries [pre] at the head of the
    queue of [ch] and left [q] in it. *)
Definition evicted (s : state) (ch : chan) (g : closeT)
  (pre q : list idleConn) : state :=
  {| self := with_conns (self s) (Some (with_buf ch q));
     wld := {| ticks := List.length pre + ticks (wld s);
               calls := calls (wld s) ++ destroy_calls g (calls (wld s)) pre |} |}.

(** [s] once a [Get] has handed over the head of the queue of [ch] and left
    [q] in it. *)
Definition handed (s : state) (ch : chan) (q : list idleConn) : state :=
  {| self := with_conns (self s) (Some (with_buf ch q));
     wld := {| ticks := looks (idleTimeout (self s)) 1 + ticks (wld s);
               calls := calls (wld s) |} |}.

(** The channel of [p], if it has one, was made with capacity [m] and
    holds no more than that. *)
Definition chan_inv (m : Z) (p : channelPool) : Prop :=
  match conns p with
  | None => True
  | Some ch => cap ch = m /\ within_cap ch
  end.

(** The pool but for its channel. *)
Definition same_settings (p p' : channelPool) : Prop :=
  factory p' = factory p /\ close p' = close p /\
  alive p' = alive p /\ idleTimeout p' = idleTimeout p.

(** What a pool made from [poolConfig] keeps for life: while it has its
    channel, the channel is open and of capacity [MaxCap] and the behaviours
    are the configured ones; once it has lost it, the behaviours are gone
    too.  The timeout is the configured one and [alive] is never set. *)
Definition settled (poolConfig : Config) (p : channelPool) : Prop :=
  match conns p with
  | Some ch =>
      closed ch = false /\ cap ch = MaxCap poolConfig /\
      factory p = Factory poolConfig /\ close p = Close poolConfig
  | None => factory p = None /\ close p = None
  end /\
  idleTimeout p = IdleTimeout poolConfig /\ alive p = None.

(** The entries [NewChannelPool] queues for the successful construct calls
    [built], the first of them stamped with the reading [n] of the clock. *)
Fixpoint entries_of (built : list event) (n : nat) : list idleConn :=
  match built with
  | [] => []
  | Constructed v _ :: built' =>
      {| conn := v; t := clock n |} :: entries_of built' (S n)
  | Destroyed _ _ :: built' => entries_of built' n
  end.

(** The number [Len] answers in state [s]. *)
Definition idle_count (s : state) : Z :=
  match conns (self s) with
  | Some ch => Z.of_nat (List.length (buf ch))
  | None => 0
  end.

(** [Put] of each value of [cs] in turn, and [n] times [Get], with the
    answers in call order. *)
Fixpoint Put_all (cs : list value) : M (list (option error)) :=
  match cs with
  | [] => ret []
  | c :: cs' => e <- Put c ;; es <- Put_all cs' ;; ret (e :: es)
  end.

Fixpoint Get_many (n : nat) : M (list (value * option error)) :=
  match n with
  | O => ret []
  | S n' => x <- Get ;; xs <- Get_many n' ;; ret (x :: xs)
  end.

(** No entry of [q] is found expired by the [Get]s that take them one by
    one, the first of them starting when the clock has been read [n]
    times. *)
Fixpoint none_expired (timeOut : Z) (n : nat) (q : list idleConn) : Prop :=
  match q with
  | [] => True
  | w :: q' =>
      ~ expired timeOut (clock n) w /\
      none_expired timeOut (looks timeOut 1 + n) q'
  end.

End Pool.

(** * A small pool to run the code on *)

Module Scenario.

(** A clock that shows 100 at first and moves by one at each reading. *)
Definition clk (n : nat) : Z := 100 + Z.of_nat n.

(** A construct behaviour that numbers its resources by the calls made
    before, and one that fails. *)
Definition numbered : @factoryT nat :=
  fun hist => (VRes (List.length hist), None).
Definition broken_factory : @factoryT nat :=
  fun _ => (VNil, Some (ErrCaller 2)).

(** A destroy behaviour that succeeds, and one that fails. *)
Definition quiet_close : @closeT nat := fun _ _ => None.
Definition failing_close : @closeT nat := fun _ _ => Some (ErrCaller 1).

Definition idle (id : nat) (since : Z) : @idleConn nat :=
  {| conn := VRes id; t := since |}.

(** An open pool of capacity [m] with the queue [q]. *)
(** An open channel of capacity [m] holding [q]. *)
Definition queue_of (q : list (@idleConn nat)) (m : Z) : @chan nat :=
  {| buf := q; cap := m; closed := false |}.

Definition pool_of (q : list (@idleConn nat)) (m : Z) (f : @factoryT nat)
  (g : @closeT nat) (timeOut : Z) : @channelPool nat :=
  {| conns := Some (queue_of q m);
     factory := Some f;
     close := Some g;
     alive := None;
     idleTimeout := timeOut |}.

(** The pool [p], the clock not yet read, no behaviour called yet. *)
Definition at_start (p : @channelPool nat) : @state nat :=
  {| self := p; wld := {| ticks := O; calls := [] |} |}.

Definition untouched : @world nat := {| ticks := O; calls := [] |}.

(** A platform on which [make] comes back for up to [2 ^ 40] entries. *)
Definition lim : Z := 2 ^ 40.

Definition config (init max : Z) (f : @factoryT nat) : @Config nat :=
  {| InitCap := init;
     MaxCap := max;
     Factory := Some f;
     Close := Some quiet_close;
     Alive := None;
     IdleTimeout := 0 |}.

(** The pool [NewChannelPool] makes from [config 2 2 numbered]. *)
Definition two_idle : @state nat :=
  {| self := pool_of [idle 0 100; idle 1 101] 2 numbered quiet_close 0;
     wld := {| ticks := 2%nat;
               calls := [Constructed (VRes 0%nat) None;
                         Constructed (VRes 1%nat) None] |} |}.

(** The pool [NewChannelPool] makes from [config 1 1 numbered], after one
    [Get]: its queue is empty. *)
Definition drained : @state nat :=
  {| self := pool_of [] 1 numbered quiet_close 0;
     wld := {| ticks := 1%nat; calls := [Constructed (VRes 0%nat) None] |} |}.

(** A pool with an idle timeout of 5 whose first entry has been idle since
    0 and whose second entry since 200, the clock showing 100. *)
Definition stale (g : @closeT nat) : @state nat :=
  at_start (pool_of [idle 1 0; idle 2 200] 2 numbered g 5).

(** An open pool with an empty queue whose construct behaviour fails. *)
Definition barren : @state nat :=
  at_start (pool_of [] 1 broken_factory quiet_close 0).

(** A construct behaviour whose first call succeeds and whose later calls
    fail, and one that answers a value together with an error. *)
Definition second_fails : @factoryT nat :=
  fun hist => match hist with
              | [] => (VRes 0%nat, None)
              | _ => (VNil, Some (ErrCaller 2))
              end.

(** An open pool with a timeout of 100 whose only entry has been idle since
    0, the clock showing 100: the entry is exactly as old as the timeout. *)
Definition on_the_bound : @state nat :=
  at_start (pool_of [idle 1 0] 2 numbered quiet_close 100).

(** An open pool with a timeout of 5 whose only entry has been idle since
    0, the clock showing 100. *)
Definition all_stale : @state nat :=
  at_start (pool_of [idle 1 0] 2 numbered quiet_close 5).

(** An open pool of capacity 3 with one idle entry and no timeout. *)
Definition roomy : @state nat :=
  at_start (pool_of [idle 1 0] 3 numbered quiet_close 0).

(** An open pool with two idle entries whose destroy behaviour fails. *)
Definition hard_to_close : @state nat :=
  at_start (pool_of [idle 1 0; idle 2 0] 2 numbered failing_close 0).

(** An open pool made without a destroy behaviour, holding [q]. *)
Definition without_close (q : list (@idleConn nat)) : @state nat :=
  at_start {| conns := Some (queue_of q 2);
              factory := Some numbered;
              close := None;
              alive := None;
              idleTimeout := 0 |}.

(** A valid configuration without a construct behaviour. *)
Definition config_without_factory : @Config nat :=
  {| InitCap := 1;
     MaxCap := 2;
     Factory := None;
     Close := Some quiet_close;
     Alive := None;
     IdleTimeout := 0 |}.

End Scenario.

(** * Properties *)

Section Theory.

Context {R : Type} (clock : nat -> Z) (max_chan : Z).

Implicit Types (s : @state R) (ch : @chan R) (c v : @value R)
  (w : @idleConn R) (q : list (@idleConn R)).

Ltac unmonad :=
  unfold bind, ret, get_pool, getConns, set_conns, panic, block, time_Now.

Ltac unmonad_in H :=
  unfold bind, ret, get_pool, getConns, set_conns, panic, block, time_Now in H.

(** ** Calls of the behaviours *)

Lemma call_close_Some (g : closeT) c s :
  call_close (Some g) c s =
  Ret (g (calls (wld s)) c, record (Destroyed c (g (calls (wld s)) c)) s).
Proof. reflexivity. Qed.

Lemma call_close_None c s : call_close None c s = Panic nil_func_call.
Proof. reflexivity. Qed.

Lemma call_close_self (f : option closeT) c s e s' :
  call_close f c s = Ret (e, s') ->
  self s' = self s /\ ticks (wld s') = ticks (wld s) /\
  calls (wld s') = calls (wld s) ++ [Destroyed c e].
Proof.
  destruct f as [g|]; simpl; intros H; [|discriminate].
  inversion H; subst; simpl. auto.
Qed.

(** ** Release *)

Lemma drain_self (f : option closeT) q :
  forall s u s', drain f q s = Ret (u, s') -> self s' = self s.
Proof.
  induction q as [|w q IH]; intros s u s' H; simpl in H.
  - unmonad_in H. inversion H; reflexivity.
  - unfold bind in H.
    destruct (call_close f (as_value w) s) as [[e s1]| |] eqn:E;
      try discriminate.
    apply call_close_self in E. destruct E as [E _].
    apply IH in H. congruence.
Qed.

Lemma Release_nils s u s' :
  Release s = Ret (u, s') ->
  conns (self s') = None /\ factory (self s') = None /\
  close (self s') = None.
Proof.
  unfold Release. unmonad. simpl. intros H.
  destruct (conns (self s)) as [ch|]; [|discriminate].
  destruct (closed ch); [discriminate|].
  apply drain_self in H. rewrite H. simpl. auto.
Qed.

Lemma Release_on_released s :
  conns (self s) = None -> Release s = Panic "close of nil channel".
Proof.
  intros H. unfold Release. unmonad. simpl. rewrite H. reflexivity.
Qed.

(** ** A released pool *)

Lemma Get_on_released s :
  conns (self s) = None -> Get clock s = Ret ((VNil, Some ErrClose), s).
Proof.
  intros H. unfold Get. unmonad. simpl. rewrite H. reflexivity.
Qed.

Lemma Len_value s :
  Len s = Ret (match conns (self s) with
               | Some ch => Z.of_nat (List.length (buf ch))
               | None => 0
               end, s).
Proof. unfold Len. unmonad. simpl. destruct (conns (self s)); reflexivity. Qed.

Lemma Len_on_released s :
  conns (self s) = None -> Len s = Ret (0, s).
Proof.
  intros H. unfold Len. unmonad. simpl. rewrite H. reflexivity.
Qed.

Lemma poolClose_self c s e s' :
  poolClose c s = Ret (e, s') -> self s' = self s.
Proof.
  unfold poolClose.
  destruct c; unmonad; simpl; intros H;
    solve [ inversion H; reflexivity
          | apply call_close_self in H; tauto ].
Qed.

Lemma Put_on_released c s :
  conns (self s) = None -> c <> VNil -> Put clock c s = poolClose c s.
Proof.
  intros H Hc. unfold Put.
  destruct c; [congruence| |]; unmonad; simpl; rewrite H; reflexivity.
Qed.

Lemma released_stays_released (o : call) s s' :
  conns (self s) = None ->
  run clock o s = Ret (tt, s') ->
  conns (self s') = None.
Proof.
  intros Hs. destruct o as [|c|c| |]; unfold run, bind.
  - rewrite (Get_on_released s Hs). unfold ret. intros H; inversion H; subst; auto.
  - destruct c as [|r|c0 t0].
    + simpl. unfold ret. intros H; inversion H; subst; auto.
    + rewrite Put_on_released by (auto; discriminate).
      destruct (poolClose (VRes r) s) as [[e s1]| |] eqn:E; try discriminate.
      apply poolClose_self in E. unfold ret. intros H; inversion H; subst.
      congruence.
    + rewrite Put_on_released by (auto; discriminate).
      destruct (poolClose (VIdle c0 t0) s) as [[e s1]| |] eqn:E;
        try discriminate.
      apply poolClose_self in E. unfold ret. intros H; inversion H; subst.
      congruence.
  - destruct (poolClose c s) as [[e s1]| |] eqn:E; try discriminate.
    apply poolClose_self in E. unfold ret. intros H; inversion H; subst.
    congruence.
  - fold (@bind R). rewrite (Release_on_released s Hs). discriminate.
  - rewrite (Len_on_released s Hs). unfold ret. intros H; inversion H; subst; auto.
Qed.

Lemma released_for_good (os : list call) :
  forall s s', conns (self s) = None ->
               run_all clock os s = Ret (tt, s') ->
               conns (self s') = None.
Proof.
  induction os as [|o os IH]; intros s s' Hs H; simpl in H.
  - unfold ret in H. inversion H; subst; auto.
  - unfold bind in H.
    destruct (run clock o s) as [[[] s1]| |] eqn:E; try discriminate.
    apply (IH s1 s'); auto.
    eapply released_stays_released; eauto.
Qed.

(** C8.  Once [Release] has come back, every [Get] that follows, whatever
    calls came back in between, answers the nil value and [ErrClose], and
    leaves the pool and the world as they are: nothing is built. *)
Theorem Get_after_Release_is_ErrClose s s1 (os : list call) s2 :
  Release s = Ret (tt, s1) ->
  run_all clock os s1 = Ret (tt, s2) ->
  Get clock s2 = Ret ((VNil, Some ErrClose), s2).
Proof.
  intros HR Hos. apply Get_on_released.
  apply (released_for_good os s1 s2); auto.
  apply Release_nils in HR. tauto.
Qed.

(** ** The constructor *)

(** C9.  When [InitCap <= 0], [MaxCap <= 0] or [InitCap > MaxCap],
    [NewChannelPool] answers no pool and the configuration error, and the
    world it leaves is the world it found: the construct behaviour was not
    called. *)
Theorem NewChannelPool_rejects_bad_config (poolConfig : @Config R) (w0 : world) :
  InitCap poolConfig <= 0 \/ MaxCap poolConfig <= 0 \/
  InitCap poolConfig > MaxCap poolConfig ->
  NewChannelPool clock max_chan poolConfig w0 = Ret ((None, Some config_error), w0).
Proof.
  intros H. unfold NewChannelPool.
  replace ((InitCap poolConfig <=? 0) || (MaxCap poolConfig <=? 0)
           || (MaxCap poolConfig <? InitCap poolConfig)) with true;
    [reflexivity|].
  symmetry. rewrite !orb_true_iff, !Z.leb_le, Z.ltb_lt. lia.
Qed.

(** The state in which the loop of [NewChannelPool] starts. *)
Lemma NewChannelPool_valid (poolConfig : @Config R) (w0 : world) :
  0 < InitCap poolConfig <= MaxCap poolConfig ->
  MaxCap poolConfig <= max_chan ->
  NewChannelPool clock max_chan poolConfig w0 =
  match New_loop clock (Z.to_nat (InitCap poolConfig))
          {| self := {| conns := Some {| buf := [];
                                         cap := MaxCap poolConfig;
                                         closed := false |};
                        factory := Factory poolConfig;
                        close := Close poolConfig;
                        alive := None;
                        idleTimeout := IdleTimeout poolConfig |};
             wld := w0 |} with
  | Ret (Some err, s) => Ret ((None, Some err), wld s)
  | Ret (None, s) => Ret ((Some (self s), None), wld s)
  | Panic msg => Panic msg
  | Deadlock => Deadlock
  end.
Proof.
  intros Hcap Hmax. unfold NewChannelPool, make_chan.
  replace ((InitCap poolConfig <=? 0) || (MaxCap poolConfig <=? 0)
           || (MaxCap poolConfig <? InitCap poolConfig)) with false
    by (symmetry; rewrite !orb_false_iff, !Z.leb_gt, Z.ltb_ge; lia).
  replace ((MaxCap poolConfig <? 0) || (max_chan <? MaxCap poolConfig))
    with false
    by (symmetry; rewrite !orb_false_iff, !Z.ltb_ge; lia).
  reflexivity.
Qed.

Lemma NewChannelPool_returned (poolConfig : @Config R) (w0 : world) r :
  NewChannelPool clock max_chan poolConfig w0 = Ret r ->
  (r = ((None, Some config_error), w0) /\
   (InitCap poolConfig <= 0 \/ MaxCap poolConfig <= 0 \/
    MaxCap poolConfig < InitCap poolConfig)) \/
  (0 < InitCap poolConfig <= MaxCap poolConfig /\
   MaxCap poolConfig <= max_chan).
Proof.
  unfold NewChannelPool, make_chan.
  destruct ((InitCap poolConfig <=? 0) || (MaxCap poolConfig <=? 0)
            || (MaxCap poolConfig <? InitCap poolConfig)) eqn:Hbad.
  - intros H. inversion H. left. split; [reflexivity|].
    rewrite !orb_true_iff, !Z.leb_le, Z.ltb_lt in Hbad. tauto.
  - destruct ((MaxCap poolConfig <? 0) || (max_chan <? MaxCap poolConfig))
      eqn:Hmk; [discriminate|].
    intros _. right.
    rewrite !orb_false_iff, !Z.leb_gt, Z.ltb_ge in Hbad.
    rewrite !orb_false_iff, !Z.ltb_ge in Hmk. lia.
Qed.

(** ** The loop of [Get] *)

Lemma with_buf_same ch : with_buf ch (buf ch) = ch.
Proof. destruct ch; reflexivity. Qed.

Lemma with_conns_same (p : @channelPool R) : with_conns p (conns p) = p.
Proof. destruct p; reflexivity. Qed.

Lemma not_expired_test (timeOut now : Z) w :
  ~ expired timeOut now w ->
  (if 0 <? timeOut then t w + timeOut <? now else false) = false.
Proof.
  unfold expired. intros H.
  destruct (0 <? timeOut) eqn:E; [|reflexivity].
  apply Z.ltb_lt in E. apply Z.ltb_ge. lia.
Qed.

(** The head of the queue is handed over when it has not expired. *)
Lemma Get_loop_hands_head w q ch s :
  ~ expired (idleTimeout (self s)) (clock (ticks (wld s))) w ->
  Get_loop clock (w :: q) ch s = Ret ((conn w, None), handed s ch q).
Proof.
  intros H. apply not_expired_test in H.
  simpl. unmonad. simpl. unfold handed, looks.
  destruct (0 <? idleTimeout (self s)); simpl.
  - rewrite H. reflexivity.
  - destruct s as [p [n h]]; reflexivity.
Qed.

(** An expired head goes to the destroy behaviour, as the [*idleConn] it is,
    and the loop goes on with the rest of the queue. *)
Lemma Get_loop_evicts_head (g : closeT) w q ch s :
  close (self s) = Some g ->
  expired (idleTimeout (self s)) (clock (ticks (wld s))) w ->
  Get_loop clock (w :: q) ch s = Get_loop clock q ch (evicted s ch g [w] q).
Proof.
  intros Hg [H0 H1]. apply Z.ltb_lt in H0, H1.
  simpl. unmonad. simpl. rewrite H0. simpl. rewrite H1, Hg. reflexivity.
Qed.

Lemma evicted_twice (g : closeT) w pre q q' ch s :
  evicted (evicted s ch g [w] q') ch g pre q = evicted s ch g (w :: pre) q.
Proof.
  unfold evicted; simpl. f_equal. f_equal.
  - rewrite Nat.add_succ_r. reflexivity.
  - rewrite <- app_assoc. reflexivity.
Qed.

Lemma Get_loop_evicts (g : closeT) pre :
  forall q ch s,
    pre <> [] ->
    close (self s) = Some g ->
    all_expired clock (idleTimeout (self s)) (ticks (wld s)) pre ->
    Get_loop clock (pre ++ q) ch s = Get_loop clock q ch (evicted s ch g pre q).
Proof.
  induction pre as [|w pre IH]; intros q ch s Hne Hg Hall; [congruence|].
  destruct Hall as [Hw Hall]. simpl app.
  rewrite (Get_loop_evicts_head g) by assumption.
  destruct pre as [|w' pre']; [reflexivity|].
  rewrite IH; [apply f_equal, evicted_twice|discriminate|exact Hg|exact Hall].
Qed.

(** On an empty queue the loop builds a resource. *)
Lemma Get_loop_builds (g : factoryT) ch s :
  closed ch = false ->
  factory (self s) = Some g ->
  Get_loop clock [] ch s =
  Ret (match snd (g (calls (wld s))) with
       | Some err => (VNil, Some err)
       | None => (fst (g (calls (wld s))), None)
       end,
       record (Constructed (fst (g (calls (wld s)))) (snd (g (calls (wld s))))) s).
Proof.
  intros Hc Hg. simpl. rewrite Hc. unmonad. rewrite Hg. simpl.
  destruct (snd (g (calls (wld s)))); reflexivity.
Qed.

Lemma Get_on_open s ch :
  conns (self s) = Some ch -> Get clock s = Get_loop clock (buf ch) ch s.
Proof.
  intros H. unfold Get. unmonad. simpl. rewrite H. reflexivity.
Qed.

(** ** Put on an open pool *)

Lemma Put_queues c s ch :
  open_on s ch ->
  Z.of_nat (List.length (buf ch)) < cap ch ->
  c <> VNil ->
  Put clock c s =
  Ret (None,
       {| self := with_conns (self s)
                    (Some (with_buf ch
                             (buf ch ++ [{| conn := c;
                                            t := clock (ticks (wld s)) |}])));
          wld := {| ticks := S (ticks (wld s)); calls := calls (wld s) |} |}).
Proof.
  intros [Hch Hopen] Hlt Hc. apply Z.ltb_lt in Hlt.
  unfold Put. destruct c; [congruence| |];
    unmonad; simpl; rewrite Hch; simpl; rewrite Hopen, Hlt; reflexivity.
Qed.

Lemma Put_sheds (g : closeT) c s ch :
  open_on s ch ->
  cap ch <= Z.of_nat (List.length (buf ch)) ->
  c <> VNil ->
  close (self s) = Some g ->
  Put clock c s =
  Ret (g (calls (wld s)) c,
       {| self := self s;
          wld := {| ticks := S (ticks (wld s));
                    calls := calls (wld s)
                             ++ [Destroyed c (g (calls (wld s)) c)] |} |}).
Proof.
  intros [Hch Hopen] Hge Hc Hg. apply Z.ltb_ge in Hge.
  unfold Put, poolClose. destruct c; [congruence| |];
    unmonad; simpl; rewrite Hch; simpl; rewrite Hopen, Hge; simpl;
    rewrite Hg; reflexivity.
Qed.

Lemma Get_many_fresh q :
  forall s ch,
    conns (self s) = Some ch ->
    buf ch = q ->
    none_expired clock (idleTimeout (self s)) (ticks (wld s)) q ->
    Get_many clock (List.length q) s =
    Ret (map (fun w => (conn w, None)) q,
         {| self := with_conns (self s) (Some (with_buf ch []));
            wld := {| ticks := looks (idleTimeout (self s)) (List.length q)
                               + ticks (wld s);
                      calls := calls (wld s) |} |}).
Proof.
  induction q as [|w q IH]; intros s ch Hch Hbuf Hfresh.
  - simpl. unfold ret. rewrite <- Hbuf, with_buf_same, <- Hch.
    rewrite with_conns_same. unfold looks.
    destruct (0 <? idleTimeout (self s)); destruct s as [p [n h]];
      reflexivity.
  - destruct Hfresh as [Hw Hq]. simpl Get_many. unfold bind at 1.
    rewrite (Get_on_open s ch Hch), Hbuf.
    rewrite Get_loop_hands_head by exact Hw.
    unfold bind.
    rewrite (IH (handed s ch q) (with_buf ch q)); try reflexivity;
      [|exact Hq].
    unfold ret, handed, looks. simpl.
    destruct (0 <? idleTimeout (self s)); simpl;
      [rewrite Nat.add_succ_r|]; reflexivity.
Qed.

(** C10.  A non-nil value [c] put into an open pool with room left is
    queued as the [conn] field of a new entry at the tail, stamped with the
    clock.  From the state that [Put] leaves:
    - when no entry expires, the [Get]s that take the entries queued
      before answer their values in order, and the next [Get] answers
      exactly [c], with no error;
    - when the entries queued before are all evicted as expired (or there
      are none) and the new entry has not expired, the very next [Get]
      answers exactly [c], with no error.
    And whenever a later [Get] finds that entry in the queue behind entries
    it evicts as expired (if any), and does not find the entry itself
    expired, the [Get] answers exactly [c], with no error, and leaves the
    entries behind it. *)
Theorem Put_then_Get_returns_the_value c s ch :
  open_on s ch ->
  Z.of_nat (List.length (buf ch)) < cap ch ->
  c <> VNil ->
  exists e s1,
    Put clock c s = Ret (None, s1) /\
    e = {| conn := c; t := clock (ticks (wld s)) |} /\
    conn e = c /\
    conns (self s1) = Some (with_buf ch (buf ch ++ [e])) /\
    conns (self s1) =
    Some {| buf := buf ch ++ [e]; cap := cap ch; closed := false |} /\
    (none_expired clock (idleTimeout (self s1)) (ticks (wld s1))
       (buf ch ++ [e]) ->
     exists s3,
       Get_many clock (S (List.length (buf ch))) s1 =
       Ret (map (fun w => (conn w, None)) (buf ch) ++ [(c, None)], s3) /\
       idle_count s3 = 0) /\
    ((buf ch = [] \/ close (self s1) <> None) ->
     all_expired clock (idleTimeout (self s1)) (ticks (wld s1)) (buf ch) ->
     ~ expired (idleTimeout (self s1))
         (clock (List.length (buf ch) + ticks (wld s1))) e ->
     exists s3,
       Get clock s1 = Ret ((c, None), s3) /\ idle_count s3 = 0) /\
    forall s2 ch2 pre rest,
      open_on s2 ch2 ->
      buf ch2 = pre ++ e :: rest ->
      (pre = [] \/ close (self s2) <> None) ->
      all_expired clock (idleTimeout (self s2)) (ticks (wld s2)) pre ->
      ~ expired (idleTimeout (self s2))
          (clock (List.length pre + ticks (wld s2))) e ->
      exists s3,
        Get clock s2 = Ret ((c, None), s3) /\
        conns (self s3) = Some (with_buf ch2 rest).
Proof.
  intros Hopen Hroom Hc.
  assert (Hlater :
    forall s2 ch2 pre rest,
      open_on s2 ch2 ->
      buf ch2 = pre ++ {| conn := c; t := clock (ticks (wld s)) |} :: rest ->
      (pre = [] \/ close (self s2) <> None) ->
      all_expired clock (idleTimeout (self s2)) (ticks (wld s2)) pre ->
      ~ expired (idleTimeout (self s2))
          (clock (List.length pre + ticks (wld s2)))
          {| conn := c; t := clock (ticks (wld s)) |} ->
      exists s3,
        Get clock s2 = Ret ((c, None), s3) /\
        conns (self s3) = Some (with_buf ch2 rest)).
  { intros s2 ch2 pre rest [Hch2 _] Hbuf Hpre Hall Hfresh.
    rewrite (Get_on_open s2 ch2 Hch2), Hbuf.
    destruct pre as [|w pre].
    - simpl app. simpl in Hfresh.
      rewrite Get_loop_hands_head by assumption.
      eexists; split; reflexivity.
    - destruct Hpre as [Hpre|Hpre]; [discriminate|].
      destruct (close (self s2)) as [g|] eqn:Hg; [|congruence].
      rewrite (Get_loop_evicts g) by (assumption || discriminate).
      rewrite Get_loop_hands_head by exact Hfresh.
      eexists; split; reflexivity. }
  exists {| conn := c; t := clock (ticks (wld s)) |}. eexists.
  split; [apply (Put_queues c s ch); assumption|].
  split; [reflexivity|]. split; [reflexivity|]. split; [reflexivity|].
  destruct Hopen as [Hch Hcl].
  split; [simpl; unfold with_buf; rewrite Hcl; reflexivity|].
  split; [|split; [|exact Hlater]].
  - intros Hfresh.
    replace (S (List.length (buf ch)))
      with (List.length (buf ch ++ [{| conn := c;
                                       t := clock (ticks (wld s)) |}]))
      by (rewrite length_app; simpl; lia).
    rewrite (Get_many_fresh _ _
               (with_buf ch (buf ch ++ [{| conn := c;
                                           t := clock (ticks (wld s)) |}])));
      [|reflexivity|reflexivity|exact Hfresh].
    eexists. split; [rewrite map_app; reflexivity|reflexivity].
  - intros Hpre Hall Hfresh.
    match goal with
    | |- exists s3, Get clock ?s1 = _ /\ _ =>
        destruct (Hlater s1
                    (with_buf ch (buf ch ++ [{| conn := c;
                                                t := clock (ticks (wld s)) |}]))
                    (buf ch) []) as (s3 & HG & Hs3)
    end.
    + split; [reflexivity|exact Hcl].
    + reflexivity.
    + exact Hpre.
    + exact Hall.
    + exact Hfresh.
    + exists s3. split; [exact HG|]. unfold idle_count. rewrite Hs3.
      reflexivity.
Qed.

(** C6, amended.  On an open pool whose queue is within capacity and starts
    with an entry that holds a non-nil value and has not expired, [Get]
    hands that value over, [Put] of it queues it again, and [Len] after the
    [Put] is [Len] before the [Get]. *)
Theorem Get_then_Put_restores_Len s ch w rest :
  open_on s ch ->
  within_cap ch ->
  buf ch = w :: rest ->
  conn w <> VNil ->
  ~ expired (idleTimeout (self s)) (clock (ticks (wld s))) w ->
  exists s1 s2 n,
    Get clock s = Ret ((conn w, None), s1) /\
    Put clock (conn w) s1 = Ret (None, s2) /\
    Len s = Ret (n, s) /\
    Len s2 = Ret (n, s2).
Proof.
  intros [Hch Hopen] Hcap Hbuf Hconn Hfresh.
  unfold within_cap in Hcap. rewrite Hbuf in Hcap. simpl List.length in Hcap.
  exists (handed s ch rest). eexists. exists (Z.of_nat (List.length (buf ch))).
  split; [|split; [|split]].
  - rewrite (Get_on_open s ch Hch), Hbuf. apply Get_loop_hands_head, Hfresh.
  - apply (Put_queues (conn w) (handed s ch rest) (with_buf ch rest)).
    + split; [reflexivity|exact Hopen].
    + simpl. lia.
    + exact Hconn.
  - unfold Len. unmonad. simpl. rewrite Hch. reflexivity.
  - unfold Len. unmonad. simpl. rewrite Hbuf, length_app. simpl.
    repeat f_equal. lia.
Qed.

(** ** The capacity of the queue *)

Lemma call_factory_self (f : option factoryT) s r s' :
  call_factory f s = Ret (r, s') ->
  self s' = self s /\ ticks (wld s') = ticks (wld s) /\
  calls (wld s') = calls (wld s) ++ [Constructed (fst r) (snd r)].
Proof.
  destruct f as [g|]; simpl; intros H; [|discriminate].
  inversion H; subst; simpl. auto.
Qed.

Lemma chan_inv_conns (m : Z) (p p' : @channelPool R) :
  conns p' = conns p -> chan_inv m p -> chan_inv m p'.
Proof. unfold chan_inv. intros ->. auto. Qed.

Lemma chan_inv_with_buf (m : Z) (p : @channelPool R) ch q :
  cap ch = m -> Z.of_nat (List.length q) <= m ->
  chan_inv m (with_conns p (Some (with_buf ch q))).
Proof. unfold chan_inv, within_cap. simpl. intros; lia. Qed.

Lemma Get_loop_keeps_cap (m : Z) q :
  forall ch s x s',
    cap ch = m ->
    Z.of_nat (List.length q) <= m ->
    chan_inv m (self s) ->
    Get_loop clock q ch s = Ret (x, s') ->
    chan_inv m (self s').
Proof.
  induction q as [|w q IH]; intros ch s x s' Hcap Hlen Hinv H.
  - simpl in H. destruct (closed ch).
    + unfold ret in H. inversion H; subst; assumption.
    + unmonad_in H.
      destruct (call_factory (factory (self s)) s) as [[r s1]| |] eqn:E;
        try discriminate.
      apply call_factory_self in E. destruct E as [E _].
      destruct (snd r); inversion H; subst;
        apply (chan_inv_conns _ (self s)); congruence.
  - simpl List.length in Hlen.
    assert (Hq : Z.of_nat (List.length q) <= m) by lia.
    simpl in H. unmonad_in H. simpl in H.
    destruct (0 <? idleTimeout (self s)); simpl in H.
    + destruct (t w + idleTimeout (self s) <? clock (ticks (wld s))).
      * match type of H with
        | match call_close ?f ?a ?s0 with _ => _ end = _ =>
            destruct (call_close f a s0) as [[e s1]| |] eqn:E;
              try discriminate
        end.
        apply call_close_self in E. destruct E as [E _].
        apply (IH ch s1 x s'); auto.
        apply (chan_inv_conns _ (with_conns (self s) (Some (with_buf ch q))));
          [rewrite E; reflexivity|].
        apply chan_inv_with_buf; assumption.
      * inversion H; subst; simpl. apply chan_inv_with_buf; auto.
    + inversion H; subst; simpl. apply chan_inv_with_buf; auto.
Qed.

Lemma Get_keeps_cap (m : Z) s x s' :
  chan_inv m (self s) -> Get clock s = Ret (x, s') -> chan_inv m (self s').
Proof.
  intros Hinv H.
  destruct (conns (self s)) as [ch|] eqn:Hch.
  - rewrite (Get_on_open s ch Hch) in H.
    unfold chan_inv in Hinv. rewrite Hch in Hinv. destruct Hinv as [Hc Hw].
    apply (Get_loop_keeps_cap m (buf ch) ch s x s'); auto.
    + unfold within_cap in Hw. lia.
    + unfold chan_inv. rewrite Hch. auto.
  - rewrite (Get_on_released s Hch) in H. inversion H; subst; assumption.
Qed.

Lemma Put_keeps_cap (m : Z) c s e s' :
  chan_inv m (self s) -> Put clock c s = Ret (e, s') -> chan_inv m (self s').
Proof.
  intros Hinv H.
  destruct c as [|r|c0 t0];
    [simpl in H; unfold ret in H; inversion H; subst; assumption| |].
  all: destruct (conns (self s)) as [ch|] eqn:Hch;
    [|rewrite Put_on_released in H by (auto; discriminate);
      apply poolClose_self in H;
      apply (chan_inv_conns _ (self s)); congruence].
  all: unfold Put in H; unmonad_in H; simpl in H; rewrite Hch in H;
    simpl in H; destruct (closed ch); [discriminate|];
    unfold chan_inv in Hinv; rewrite Hch in Hinv; destruct Hinv as [Hc Hw];
    destruct (Z.of_nat (List.length (buf ch)) <? cap ch) eqn:Hlt; simpl in H.
  all: try (inversion H; subst; simpl; apply chan_inv_with_buf;
            [reflexivity|];
            apply Z.ltb_lt in Hlt; rewrite length_app; simpl; lia).
  all: unmonad_in H; apply call_close_self in H; destruct H as [H _];
    apply (chan_inv_conns _ (self s)); [rewrite H; reflexivity|];
    unfold chan_inv; rewrite Hch; auto.
Qed.

Lemma run_keeps_cap (m : Z) (o : call) s s' :
  chan_inv m (self s) -> run clock o s = Ret (tt, s') -> chan_inv m (self s').
Proof.
  intros Hinv. destruct o as [|c|c| |]; unfold run, bind.
  - destruct (Get clock s) as [[x s1]| |] eqn:E; try discriminate.
    unfold ret. intros H; inversion H; subst.
    eapply Get_keeps_cap; eauto.
  - destruct (Put clock c s) as [[x s1]| |] eqn:E; try discriminate.
    unfold ret. intros H; inversion H; subst.
    eapply Put_keeps_cap; eauto.
  - destruct (poolClose c s) as [[x s1]| |] eqn:E; try discriminate.
    unfold ret. intros H; inversion H; subst.
    apply poolClose_self in E.
    apply (chan_inv_conns _ (self s)); congruence.
  - intros H. apply Release_nils in H.
    unfold chan_inv. destruct H as [-> _]. exact I.
  - rewrite Len_value. unfold ret. intros H; inversion H; subst; exact Hinv.
Qed.

Lemma New_loop_keeps_cap (m : Z) (todo : nat) :
  forall s oe s',
    chan_inv m (self s) ->
    New_loop clock todo s = Ret (oe, s') ->
    chan_inv m (self s').
Proof.
  induction todo as [|todo IH]; intros s oe s' Hinv H; simpl in H.
  - unfold ret in H. inversion H; subst; assumption.
  - unfold bind at 1 2 in H. unfold get_pool in H.
    destruct (call_factory (factory (self s)) s) as [[r s1]| |] eqn:E;
      try discriminate.
    apply call_factory_self in E. destruct E as [E _].
    destruct (snd r).
    + unfold bind in H.
      destruct (Release s1) as [[u s2]| |] eqn:ER; try discriminate.
      apply Release_nils in ER. unfold ret in H. inversion H; subst.
      unfold chan_inv. destruct ER as [-> _]. exact I.
    + unfold send in H. unmonad_in H. simpl in H. rewrite E in H.
      destruct (conns (self s)) as [ch|] eqn:Hch; [|discriminate].
      destruct (closed ch); [discriminate|].
      destruct (Z.of_nat (List.length (buf ch)) <? cap ch) eqn:Hlt;
        [|discriminate].
      simpl in H. apply IH in H; [exact H|]. simpl.
      unfold chan_inv in Hinv. rewrite Hch in Hinv. destruct Hinv as [Hc Hw].
      apply chan_inv_with_buf; [exact Hc|].
      apply Z.ltb_lt in Hlt. rewrite length_app. simpl. lia.
Qed.

Lemma NewChannelPool_cap (poolConfig : @Config R) (w0 w1 : world) p :
  NewChannelPool clock max_chan poolConfig w0 = Ret ((Some p, None), w1) ->
  0 < MaxCap poolConfig /\ chan_inv (MaxCap poolConfig) p.
Proof.
  intros H. destruct (NewChannelPool_returned _ _ _ H) as [[E _]|[Hcap Hmax]];
    [discriminate|].
  rewrite NewChannelPool_valid in H by assumption.
  match type of H with
  | match New_loop clock ?n ?s0 with _ => _ end = _ =>
      destruct (New_loop clock n s0) as [[[err|] s1]| |] eqn:E;
        try discriminate
  end.
  inversion H; subst. split; [lia|].
  apply New_loop_keeps_cap with (m := MaxCap poolConfig) in E; [exact E|].
  unfold chan_inv, within_cap. simpl. lia.
Qed.

Lemma reachable_cap (poolConfig : @Config R) (w0 : world) s :
  reachable clock max_chan poolConfig w0 s ->
  0 < MaxCap poolConfig /\ chan_inv (MaxCap poolConfig) (self s).
Proof.
  induction 1 as [p w1 H|s s' o _ [IH0 IH] H].
  - apply NewChannelPool_cap in H. exact H.
  - split; [exact IH0|]. eapply run_keeps_cap; eauto.
Qed.

(** C7.  In every state reached from [NewChannelPool] through calls that
    came back, [Len] answers a number between 0 and [MaxCap]; and there a
    [Put] of a non-nil value on an open pool whose queue holds [MaxCap]
    entries calls the configured destroy behaviour once, on that value,
    answers what the behaviour answered, and leaves the queue as it was. *)
Theorem Len_within_MaxCap_and_Put_sheds
  (poolConfig : @Config R) (w0 : world) s :
  reachable clock max_chan poolConfig w0 s ->
  (exists n, Len s = Ret (n, s) /\ 0 <= n <= MaxCap poolConfig) /\
  (forall ch c (g : closeT),
      open_on s ch ->
      Z.of_nat (List.length (buf ch)) = MaxCap poolConfig ->
      c <> VNil ->
      close (self s) = Some g ->
      Put clock c s =
      Ret (g (calls (wld s)) c,
           {| self := self s;
              wld := {| ticks := S (ticks (wld s));
                        calls := calls (wld s)
                                 ++ [Destroyed c (g (calls (wld s)) c)] |} |})).
Proof.
  intros Hreach. apply reachable_cap in Hreach.
  destruct Hreach as [Hmax Hinv]. unfold chan_inv in Hinv. split.
  - unfold Len. unmonad. simpl.
    destruct (conns (self s)) as [ch|].
    + exists (Z.of_nat (List.length (buf ch))). split; [reflexivity|].
      unfold within_cap in Hinv. lia.
    + exists 0. split; [reflexivity|lia].
  - intros ch c g Hopen Hfull Hc Hg.
    apply (Put_sheds g c s ch); auto.
    destruct Hopen as [Hch _]. rewrite Hch in Hinv. lia.
Qed.

(** ** What the behaviours answer and what the caller gets *)

Lemma drain_calls (f : option closeT) q :
  forall s u s',
    drain f q s = Ret (u, s') ->
    exists ds, Forall is_destroy ds /\ calls (wld s') = calls (wld s) ++ ds.
Proof.
  induction q as [|w q IH]; intros s u s' H; simpl in H.
  - unfold ret in H. inversion H; subst.
    exists []. split; [constructor|]. rewrite app_nil_r. reflexivity.
  - unfold bind in H.
    destruct (call_close f (as_value w) s) as [[e s1]| |] eqn:E;
      try discriminate.
    apply call_close_self in E. destruct E as (_ & _ & E).
    apply IH in H. destruct H as (ds & Hds & H).
    exists (Destroyed (as_value w) e :: ds). split.
    + constructor; [exact I|exact Hds].
    + rewrite H, E, <- app_assoc. reflexivity.
Qed.

Lemma Release_calls s u s' :
  Release s = Ret (u, s') ->
  exists ds, Forall is_destroy ds /\ calls (wld s') = calls (wld s) ++ ds.
Proof.
  unfold Release. unmonad. simpl. intros H.
  destruct (conns (self s)) as [ch|]; [|discriminate].
  destruct (closed ch); [discriminate|].
  apply drain_calls in H. exact H.
Qed.

Lemma Get_loop_calls q :
  forall ch s v oe s',
    Get_loop clock q ch s = Ret ((v, oe), s') ->
    exists ds,
      Forall is_destroy ds /\
      (calls (wld s') = calls (wld s) ++ ds \/
       exists v', calls (wld s') = calls (wld s) ++ ds ++ [Constructed v' oe]).
Proof.
  induction q as [|w q IH]; intros ch s v oe s' H.
  - exists []. split; [constructor|]. simpl in H. destruct (closed ch).
    + unfold ret in H. inversion H; subst. left.
      rewrite app_nil_r. reflexivity.
    + unmonad_in H.
      destruct (call_factory (factory (self s)) s) as [[r s1]| |] eqn:E;
        try discriminate.
      apply call_factory_self in E. destruct E as (_ & _ & E).
      right. exists (fst r).
      destruct (snd r); inversion H; subst; exact E.
  - simpl in H. unmonad_in H. simpl in H.
    destruct (0 <? idleTimeout (self s)); simpl in H.
    + destruct (t w + idleTimeout (self s) <? clock (ticks (wld s))).
      * match type of H with
        | match call_close ?f ?a ?s0 with _ => _ end = _ =>
            destruct (call_close f a s0) as [[e s1]| |] eqn:E;
              try discriminate
        end.
        apply call_close_self in E. destruct E as (_ & _ & E).
        simpl in E. apply IH in H. destruct H as (ds & Hds & H).
        exists (Destroyed (as_value w) e :: ds).
        split; [constructor; [exact I|exact Hds]|].
        rewrite E in H. destruct H as [H|[v' H]]; rewrite <- app_assoc in H.
        -- left. exact H.
        -- right. exists v'. exact H.
      * inversion H; subst; simpl. exists []. split; [constructor|].
        left. rewrite app_nil_r. reflexivity.
    + inversion H; subst; simpl. exists []. split; [constructor|].
      left. rewrite app_nil_r. reflexivity.
Qed.

Lemma poolClose_calls c s oe s' :
  poolClose c s = Ret (oe, s') ->
  calls (wld s') = calls (wld s) \/
  calls (wld s') = calls (wld s) ++ [Destroyed c oe].
Proof.
  unfold poolClose. destruct c; unmonad; intros H;
    solve [ inversion H; subst; left; reflexivity
          | apply call_close_self in H; right; tauto ].
Qed.

Lemma Put_calls c s oe s' :
  Put clock c s = Ret (oe, s') ->
  calls (wld s') = calls (wld s) \/
  calls (wld s') = calls (wld s) ++ [Destroyed c oe].
Proof.
  intros H.
  destruct c as [|r|c0 t0];
    [simpl in H; unfold ret in H; inversion H; subst; left; reflexivity| |].
  all: destruct (conns (self s)) as [ch|] eqn:Hch;
    [|rewrite Put_on_released in H by (auto; discriminate);
      apply poolClose_calls in H; exact H].
  all: unfold Put in H; unmonad_in H; simpl in H; rewrite Hch in H;
    simpl in H; destruct (closed ch); [discriminate|];
    destruct (Z.of_nat (List.length (buf ch)) <? cap ch); simpl in H.
  all: try (inversion H; subst; left; reflexivity).
  all: unmonad_in H; apply call_close_self in H; right; tauto.
Qed.

Lemma New_loop_calls (todo : nat) :
  forall s oe s',
    New_loop clock todo s = Ret (oe, s') ->
    exists built,
      Forall is_built built /\
      ((oe = None /\ calls (wld s') = calls (wld s) ++ built) \/
       exists v e ds,
         oe = Some e /\ Forall is_destroy ds /\
         calls (wld s') = calls (wld s) ++ built ++ Constructed v (Some e) :: ds).
Proof.
  induction todo as [|todo IH]; intros s oe s' H; simpl in H.
  - unfold ret in H. inversion H; subst. exists [].
    split; [constructor|]. left. rewrite app_nil_r. auto.
  - unfold bind at 1 2 in H. unfold get_pool in H.
    destruct (call_factory (factory (self s)) s) as [[r s1]| |] eqn:E;
      try discriminate.
    apply call_factory_self in E. destruct E as (Es & _ & E).
    destruct (snd r) as [err|].
    + unfold bind in H.
      destruct (Release s1) as [[u s2]| |] eqn:ER; try discriminate.
      apply Release_calls in ER. destruct ER as (ds & Hds & ER).
      unfold ret in H. inversion H; subst.
      exists []. split; [constructor|]. right.
      exists (fst r), err, ds. split; [reflexivity|]. split; [exact Hds|].
      rewrite ER, E, <- app_assoc. reflexivity.
    + unfold send in H. unmonad_in H. simpl in H. rewrite Es in H.
      destruct (conns (self s)) as [ch|]; [|discriminate].
      destruct (closed ch); [discriminate|].
      destruct (Z.of_nat (List.length (buf ch)) <? cap ch); [|discriminate].
      simpl in H. apply IH in H. simpl in H. rewrite E in H.
      destruct H as (built & Hb & [[H0 H]|(v' & e & ds & H0 & Hds & H)]);
        rewrite <- app_assoc in H;
        exists (Constructed (fst r) None :: built);
        (split; [constructor; [exact I|exact Hb]|]).
      * left. auto.
      * right. exists v', e, ds. auto.
Qed.

(** ** What [Release] leaves behind *)

Lemma drain_value (g : closeT) q :
  forall s,
    drain (Some g) q s =
    Ret (tt, {| self := self s;
                wld := {| ticks := ticks (wld s);
                          calls := calls (wld s)
                                   ++ destroy_calls g (calls (wld s)) q |} |}).
Proof.
  induction q as [|w q IH]; intros s; simpl.
  - unfold ret. destruct s as [p [n h]]; simpl. rewrite app_nil_r.
    reflexivity.
  - unfold bind. simpl. rewrite IH. simpl.
    rewrite <- app_assoc. reflexivity.
Qed.

(** [Release] on an open pool hands every queued [*idleConn], not the
    value it holds, to the destroy behaviour, in queue order. *)
Lemma Release_value (g : closeT) s ch :
  open_on s ch ->
  close (self s) = Some g ->
  Release s =
  Ret (tt, {| self := {| conns := None;
                         factory := None;
                         close := None;
                         alive := alive (self s);
                         idleTimeout := idleTimeout (self s) |};
              wld := {| ticks := ticks (wld s);
                        calls := calls (wld s)
                                 ++ destroy_calls g (calls (wld s)) (buf ch) |} |}).
Proof.
  intros [Hch Hopen] Hg. unfold Release. unmonad. simpl.
  rewrite Hch, Hopen, Hg. rewrite drain_value. reflexivity.
Qed.

Lemma New_loop_returns (f : factoryT) (g : closeT) (todo : nat) :
  forall s ch,
    open_on s ch ->
    factory (self s) = Some f ->
    close (self s) = Some g ->
    Z.of_nat (List.length (buf ch)) + Z.of_nat todo <= cap ch ->
    exists oe s', New_loop clock todo s = Ret (oe, s').
Proof.
  induction todo as [|todo IH]; intros s ch [Hch Hopen] Hf Hg Hroom.
  - simpl. unfold ret. eauto.
  - simpl. unfold bind at 1 2. unfold get_pool. rewrite Hf. simpl.
    destruct (snd (f (calls (wld s)))) as [err|].
    + unfold bind.
      rewrite (Release_value g _ ch);
        [unfold ret; eauto|split; [exact Hch|exact Hopen]|exact Hg].
    + unfold bind at 1. unfold time_Now. unfold bind at 1.
      unfold send, bind, get_pool. simpl. rewrite Hch. simpl.
      rewrite Hopen.
      replace (Z.of_nat (List.length (buf ch)) <? cap ch) with true
        by (symmetry; apply Z.ltb_lt; lia).
      simpl.
      match goal with
      | |- exists oe s', New_loop clock todo ?s0 = _ =>
          apply (IH s0 (with_buf ch
                          (buf ch ++ [{| conn := fst (f (calls (wld s)));
                                         t := clock (ticks (wld s)) |}])))
      end.
      * split; [reflexivity|exact Hopen].
      * exact Hf.
      * exact Hg.
      * simpl. rewrite length_app. simpl. lia.
Qed.

(** C5, amended.  Whenever the call comes back:
    - a [Get] calls the construct behaviour at most once, as the last
      behaviour call it makes, and answers the error of that call; the
      calls before it are destroy calls, whose errors are not answered;
    - a [Put], and a [Close], make at most one behaviour call, a destroy
      call on the value given, and answer the error of that call;
    - [NewChannelPool] answers the error of the first construct call that
      fails, makes no construct call after it (only destroy calls, whose
      errors are not answered), and answers no pool.
    And [NewChannelPool] does come back when its capacities are valid and
    within what [make] accepts and both behaviours are configured. *)
Theorem behaviour_errors_handed_to_caller :
  (forall s v oe s',
      Get clock s = Ret ((v, oe), s') ->
      exists ds,
        Forall is_destroy ds /\
        (calls (wld s') = calls (wld s) ++ ds \/
         exists v',
           calls (wld s') = calls (wld s) ++ ds ++ [Constructed v' oe])) /\
  (forall c s oe s',
      Put clock c s = Ret (oe, s') ->
      calls (wld s') = calls (wld s) \/
      calls (wld s') = calls (wld s) ++ [Destroyed c oe]) /\
  (forall c s oe s',
      poolClose c s = Ret (oe, s') ->
      calls (wld s') = calls (wld s) \/
      calls (wld s') = calls (wld s) ++ [Destroyed c oe]) /\
  (forall (poolConfig : @Config R) (w0 w1 : world) op oe,
      NewChannelPool clock max_chan poolConfig w0 = Ret ((op, oe), w1) ->
      exists built,
        Forall is_built built /\
        (calls w1 = calls w0 ++ built \/
         exists v' e ds,
           oe = Some e /\ op = None /\ Forall is_destroy ds /\
           calls w1 = calls w0 ++ built ++ Constructed v' (Some e) :: ds)) /\
  (forall (poolConfig : @Config R) (w0 : world) (f : factoryT) (g : closeT),
      0 < InitCap poolConfig <= MaxCap poolConfig ->
      MaxCap poolConfig <= max_chan ->
      Factory poolConfig = Some f ->
      Close poolConfig = Some g ->
      exists op oe (w1 : world),
        NewChannelPool clock max_chan poolConfig w0 = Ret ((op, oe), w1)).
Proof.
  split; [|split; [|split; [|split]]].
  - intros s v oe s' H.
    destruct (conns (self s)) as [ch|] eqn:Hch.
    + rewrite (Get_on_open s ch Hch) in H. eapply Get_loop_calls; eauto.
    + rewrite (Get_on_released s Hch) in H. inversion H; subst.
      exists []. split; [constructor|]. left. rewrite app_nil_r. reflexivity.
  - apply Put_calls.
  - apply poolClose_calls.
  - intros poolConfig w0 w1 op oe H.
    destruct (NewChannelPool_returned _ _ _ H) as [[E _]|[Hcap Hmax]].
    + inversion E; subst. exists [].
      split; [constructor|]. left. rewrite app_nil_r. reflexivity.
    + rewrite NewChannelPool_valid in H by assumption.
      match type of H with
      | match New_loop clock ?n ?s0 with _ => _ end = _ =>
          destruct (New_loop clock n s0) as [[[err|] s1]| |] eqn:E;
            try discriminate
      end.
      all: inversion H; subst; apply New_loop_calls in E;
        simpl in E; destruct E as (built & Hb & [[E0 E]|(v' & e & ds & E0 & Hds & E)]);
        try discriminate; exists built; split; try exact Hb.
      * right. exists v', e, ds. inversion E0; subst. auto.
      * left. exact E.
  - intros poolConfig w0 f g Hcap Hmax Hf Hg.
    rewrite NewChannelPool_valid by assumption.
    match goal with
    | |- context [New_loop clock ?n ?s0] =>
        destruct (New_loop_returns f g n s0
                    {| buf := []; cap := MaxCap poolConfig; closed := false |})
          as (oe & s1 & HN)
    end.
    + split; reflexivity.
    + exact Hf.
    + exact Hg.
    + simpl. rewrite Z2Nat.id; lia.
    + rewrite HN. destruct oe; eauto.
Qed.

(** After [Release] the destroy behaviour is gone, so the [Close] that
    [Put] falls back to calls a nil function. *)
Lemma Put_on_released_panics c s u s1 :
  Release s = Ret (u, s1) ->
  c <> VNil ->
  Put clock c s1 = Panic nil_func_call.
Proof.
  intros H Hc. apply Release_nils in H. destruct H as (Hconns & _ & Hclose).
  rewrite Put_on_released by assumption.
  unfold poolClose. destruct c; [congruence| |];
    unmonad; rewrite Hclose; reflexivity.
Qed.

(** A second [Release] closes the nil channel the first one left. *)
Lemma Release_again_panics s u s1 :
  Release s = Ret (u, s1) ->
  Release s1 = Panic "close of nil channel".
Proof.
  intros H. apply Release_nils in H. apply Release_on_released. tauto.
Qed.

(** * Further properties of the code *)

(** ** A released pool is inert *)

Lemma poolClose_without_close c s :
  close (self s) = None -> c <> VNil -> poolClose c s = Panic nil_func_call.
Proof.
  intros Hclose Hc. unfold poolClose.
  destruct c; [congruence| |]; unmonad; rewrite Hclose; reflexivity.
Qed.

Lemma released_call_changes_nothing (o : call) s s' :
  conns (self s) = None ->
  close (self s) = None ->
  run clock o s = Ret (tt, s') ->
  s' = s.
Proof.
  intros Hconns Hclose. destruct o as [|c|c| |]; unfold run, bind.
  - rewrite (Get_on_released s Hconns). unfold ret.
    intros H; inversion H; reflexivity.
  - destruct c as [|r|c0 t0].
    + simpl. unfold ret. intros H; inversion H; reflexivity.
    + rewrite Put_on_released by (auto; discriminate).
      rewrite poolClose_without_close by (auto; discriminate). discriminate.
    + rewrite Put_on_released by (auto; discriminate).
      rewrite poolClose_without_close by (auto; discriminate). discriminate.
  - destruct c as [|r|c0 t0].
    + simpl. unfold ret. intros H; inversion H; reflexivity.
    + rewrite poolClose_without_close by (auto; discriminate). discriminate.
    + rewrite poolClose_without_close by (auto; discriminate). discriminate.
  - rewrite (Release_on_released s Hconns). discriminate.
  - rewrite (Len_on_released s Hconns). unfold ret.
    intros H; inversion H; reflexivity.
Qed.

(** X1.  Once [Release] has come back, whatever calls come back after it
    leave the pool and the world exactly as [Release] left them: no
    behaviour is called, the clock is not read, and [Len] answers 0. *)
Theorem released_pool_is_inert s s1 (os : list call) s2 :
  Release s = Ret (tt, s1) ->
  run_all clock os s1 = Ret (tt, s2) ->
  s2 = s1 /\ Len s2 = Ret (0, s2).
Proof.
  intros HR. apply Release_nils in HR. destruct HR as (Hconns & _ & Hclose).
  revert s2. induction os as [|o os IH]; intros s2 H; simpl in H.
  - unfold ret in H. inversion H; subst. split; [reflexivity|].
    apply Len_on_released, Hconns.
  - unfold bind in H.
    destruct (run clock o s1) as [[[] s1']| |] eqn:E; try discriminate.
    apply released_call_changes_nothing in E; auto. subst s1'.
    apply IH, H.
Qed.

(** ** What [Get] does to the queue and to its answer *)

Lemma Get_loop_frame q :
  forall ch s x s',
    Get_loop clock q ch s = Ret (x, s') ->
    same_settings (self s) (self s') /\
    ((q = [] /\ conns (self s') = conns (self s)) \/
     exists q', conns (self s') = Some (with_buf ch q') /\
                (List.length q' < List.length q)%nat).
Proof.
  induction q as [|w q IH]; intros ch s x s' H.
  - simpl in H. destruct (closed ch).
    + unfold ret in H. inversion H; subst.
      split; [repeat split|left; auto].
    + unmonad_in H.
      destruct (call_factory (factory (self s)) s) as [[r s1]| |] eqn:E;
        try discriminate.
      apply call_factory_self in E. destruct E as [E _].
      assert (s' = s1) by (destruct (snd r); inversion H; reflexivity).
      subst s'. rewrite E. split; [repeat split|left; auto].
  - simpl in H. unmonad_in H. simpl in H.
    destruct (0 <? idleTimeout (self s)); simpl in H.
    + destruct (t w + idleTimeout (self s) <? clock (ticks (wld s))).
      * match type of H with
        | match call_close ?f ?a ?s0 with _ => _ end = _ =>
            destruct (call_close f a s0) as [[e s1]| |] eqn:E;
              try discriminate
        end.
        apply call_close_self in E. destruct E as [E _]. simpl in E.
        apply IH in H. rewrite E in H. simpl in H.
        destruct H as [Hset [[Hq Hc]|(q' & Hc & Hlt)]].
        -- split; [exact Hset|]. right. exists []. subst q.
           split; [exact Hc|simpl; lia].
        -- split; [exact Hset|]. right. exists q'.
           split; [exact Hc|simpl; lia].
      * inversion H; subst; simpl. split; [repeat split|].
        right. exists q. split; [reflexivity|lia].
    + inversion H; subst; simpl. split; [repeat split|].
      right. exists q. split; [reflexivity|lia].
Qed.

(** X2.  A [Get] that comes back never leaves more idle entries than it
    found, and leaves fewer when it found any. *)
Theorem Get_shrinks_the_queue s x s' :
  Get clock s = Ret (x, s') ->
  idle_count s' <= idle_count s /\
  (0 < idle_count s -> idle_count s' < idle_count s).
Proof.
  intros H. unfold idle_count.
  destruct (conns (self s)) as [ch|] eqn:Hch.
  - rewrite (Get_on_open s ch Hch) in H. apply Get_loop_frame in H.
    destruct H as [_ [[Hq Hc]|(q' & Hc & Hlt)]]; rewrite Hc.
    + rewrite Hch, Hq. simpl. lia.
    + simpl. lia.
  - rewrite (Get_on_released s Hch) in H. inversion H; subst.
    rewrite Hch. lia.
Qed.




(** ** What [Put] does to the queue *)

Lemma Put_frame c s e s' :
  Put clock c s = Ret (e, s') ->
  same_settings (self s) (self s') /\
  (conns (self s') = conns (self s) \/
   exists ch x,
     conns (self s) = Some ch /\
     conns (self s') = Some (with_buf ch (buf ch ++ [x])) /\
     conn x = c /\ e = None /\
     Z.of_nat (List.length (buf ch)) < cap ch).
Proof.
  intros H.
  destruct c as [|r|c0 t0];
    [simpl in H; unfold ret in H; inversion H; subst;
     split; [repeat split|left; reflexivity]| |].
  all: destruct (conns (self s)) as [ch|] eqn:Hch;
    [|rewrite Put_on_released in H by (auto; discriminate);
      apply poolClose_self in H; rewrite H, Hch;
      split; [repeat split|left; reflexivity]].
  all: unfold Put in H; unmonad_in H; simpl in H; rewrite Hch in H;
    simpl in H; destruct (closed ch); [discriminate|];
    destruct (Z.of_nat (List.length (buf ch)) <? cap ch) eqn:Hlt; simpl in H.
  all: try (inversion H; subst; simpl; split; [repeat split|];
            right; eexists; eexists; split; [reflexivity|];
            split; [reflexivity|]; split; [reflexivity|];
            split; [reflexivity|]; apply Z.ltb_lt; exact Hlt).
  all: unmonad_in H; apply call_close_self in H; destruct H as [H _];
    rewrite H; simpl; split; [repeat split|left; exact Hch].
Qed.

(** X4.  A [Put] that comes back leaves the number of idle entries as it
    was or adds one to it; it adds one only when it answers no error, and
    then the queue was short of its capacity. *)
Theorem Put_adds_at_most_one c s e s' :
  Put clock c s = Ret (e, s') ->
  idle_count s' = idle_count s \/
  (idle_count s' = idle_count s + 1 /\ e = None /\
   exists ch, conns (self s) = Some ch /\ idle_count s < cap ch).
Proof.
  intros H. apply Put_frame in H.
  destruct H as [_ [Hc|(ch & x & Hs & Hs' & _ & He & Hlt)]];
    unfold idle_count.
  - left. rewrite Hc. reflexivity.
  - right. rewrite Hs, Hs'. simpl. rewrite length_app. simpl.
    split; [lia|]. split; [exact He|]. exists ch. auto.
Qed.

(** ** What a pool keeps for life *)

Lemma Release_self s u s' :
  Release s = Ret (u, s') ->
  self s' = {| conns := None;
               factory := None;
               close := None;
               alive := alive (self s);
               idleTimeout := idleTimeout (self s) |}.
Proof.
  unfold Release. unmonad. simpl. intros H.
  destruct (conns (self s)) as [ch|]; [|discriminate].
  destruct (closed ch); [discriminate|].
  apply drain_self in H. exact H.
Qed.

Lemma settled_step (poolConfig : @Config R) (p p' : channelPool) :
  settled poolConfig p ->
  same_settings p p' ->
  (conns p' = conns p \/
   exists ch q', conns p = Some ch /\ conns p' = Some (with_buf ch q')) ->
  settled poolConfig p'.
Proof.
  unfold settled, same_settings.
  intros (Hch & Ht & Ha) (Hf & Hc & Hal & Hto) [Hsame|(ch & q' & Hp & Hp')].
  - rewrite Hsame, Hf, Hc, Hal, Hto. auto.
  - rewrite Hp in Hch. rewrite Hp', Hf, Hc, Hal, Hto. simpl. auto.
Qed.

Lemma run_keeps_settled (poolConfig : @Config R) (o : call) s s' :
  settled poolConfig (self s) ->
  run clock o s = Ret (tt, s') ->
  settled poolConfig (self s').
Proof.
  intros Hset. destruct o as [|c|c| |]; unfold run, bind.
  - destruct (Get clock s) as [[x s1]| |] eqn:E; try discriminate.
    unfold ret. intros H; inversion H; subst.
    destruct (conns (self s)) as [ch|] eqn:Hch.
    + rewrite (Get_on_open s ch Hch) in E. apply Get_loop_frame in E.
      destruct E as [Hs [[_ Hc]|(q' & Hc & _)]].
      * apply (settled_step _ (self s)); [exact Hset|exact Hs|].
        left. congruence.
      * apply (settled_step _ (self s)); [exact Hset|exact Hs|].
        right. eauto.
    + rewrite (Get_on_released s Hch) in E. inversion E; subst. exact Hset.
  - destruct (Put clock c s) as [[x s1]| |] eqn:E; try discriminate.
    unfold ret. intros H; inversion H; subst.
    apply Put_frame in E. destruct E as [Hs [Hc|(ch & y & Hp & Hp' & _)]].
    + apply (settled_step _ (self s)); [exact Hset|exact Hs|].
      left. exact Hc.
    + apply (settled_step _ (self s)); [exact Hset|exact Hs|].
      right. eauto.
  - destruct (poolClose c s) as [[x s1]| |] eqn:E; try discriminate.
    unfold ret. intros H; inversion H; subst.
    apply poolClose_self in E. rewrite E. exact Hset.
  - intros H. apply Release_self in H. rewrite H.
    unfold settled in *. simpl. tauto.
  - rewrite Len_value. unfold ret. intros H; inversion H; subst. exact Hset.
Qed.

Lemma New_loop_frame (todo : nat) :
  forall s ch s',
    open_on s ch ->
    New_loop clock todo s = Ret (None, s') ->
    exists q', self s' = with_conns (self s) (Some (with_buf ch q')).
Proof.
  induction todo as [|todo IH]; intros s ch s' [Hch Hopen] H; simpl in H.
  - unfold ret in H. inversion H; subst. exists (buf ch).
    rewrite with_buf_same, <- Hch, with_conns_same. reflexivity.
  - unfold bind at 1 2 in H. unfold get_pool in H.
    destruct (call_factory (factory (self s)) s) as [[r s1]| |] eqn:E;
      try discriminate.
    apply call_factory_self in E. destruct E as [E _].
    destruct (snd r).
    + unfold bind in H.
      destruct (Release s1) as [[u s2]| |]; discriminate.
    + unfold send in H. unmonad_in H. simpl in H. rewrite E, Hch in H.
      rewrite Hopen in H.
      destruct (Z.of_nat (List.length (buf ch)) <? cap ch); [|discriminate].
      simpl in H.
      apply (IH _ (with_buf ch (buf ch ++ [{| conn := fst r;
                                              t := clock (ticks (wld s1)) |}])))
        in H; [|split; [reflexivity|exact Hopen]].
      destruct H as [q' H]. exists q'. rewrite H. reflexivity.
Qed.

Lemma NewChannelPool_settled (poolConfig : @Config R) (w0 w1 : world) p :
  NewChannelPool clock max_chan poolConfig w0 = Ret ((Some p, None), w1) ->
  settled poolConfig p /\ conns p <> None.
Proof.
  intros H. destruct (NewChannelPool_returned _ _ _ H) as [[E _]|[Hcap Hmax]];
    [discriminate|].
  rewrite NewChannelPool_valid in H by assumption.
  match type of H with
  | match New_loop clock ?n ?s0 with _ => _ end = _ =>
      destruct (New_loop clock n s0) as [[[err|] s1]| |] eqn:E;
        try discriminate
  end.
  inversion H; subst.
  eapply New_loop_frame in E; [|split; reflexivity].
  destruct E as [q' E]. rewrite E. unfold settled. simpl.
  split; [auto 10|discriminate].
Qed.

Lemma reachable_settled (poolConfig : @Config R) (w0 : world) s :
  reachable clock max_chan poolConfig w0 s ->
  settled poolConfig (self s).
Proof.
  induction 1 as [p w1 H|s s' o _ IH H].
  - apply NewChannelPool_settled in H. tauto.
  - eapply run_keeps_settled; eauto.
Qed.

(** X5.  In every state reached from [NewChannelPool] the pool still has
    the timeout of its configuration and no health-check function; while
    it has its channel, the channel is open, of capacity [MaxCap], and the
    behaviours are the configured ones; without its channel it has no
    behaviours either. *)
Theorem reachable_pool_is_settled (poolConfig : @Config R) (w0 : world) s :
  reachable clock max_chan poolConfig w0 s ->
  idleTimeout (self s) = IdleTimeout poolConfig /\
  alive (self s) = None /\
  (forall ch,
      conns (self s) = Some ch ->
      closed ch = false /\ cap ch = MaxCap poolConfig /\
      factory (self s) = Factory poolConfig /\
      close (self s) = Close poolConfig) /\
  (conns (self s) = None ->
   factory (self s) = None /\ close (self s) = None).
Proof.
  intros Hreach. apply reachable_settled in Hreach.
  unfold settled in Hreach. destruct Hreach as (Hch & Hto & Hal).
  split; [exact Hto|]. split; [exact Hal|]. split.
  - intros ch Hc. rewrite Hc in Hch. exact Hch.
  - intros Hc. rewrite Hc in Hch. exact Hch.
Qed.

(** ** Calls that always come back *)

Lemma Get_loop_returns (f : factoryT) (g : closeT) q :
  forall ch s,
    factory (self s) = Some f ->
    close (self s) = Some g ->
    exists x s', Get_loop clock q ch s = Ret (x, s').
Proof.
  induction q as [|w q IH]; intros ch s Hf Hg.
  - simpl. destruct (closed ch); [unfold ret; eauto|].
    unmonad. rewrite Hf. simpl.
    destruct (snd (f (calls (wld s)))); eauto.
  - simpl. unmonad. simpl.
    destruct (0 <? idleTimeout (self s)); simpl; [|eauto].
    destruct (t w + idleTimeout (self s) <? clock (ticks (wld s))); [|eauto].
    rewrite Hg. simpl. apply IH; assumption.
Qed.

(** X6.  In every state reached from a configuration that has both a
    construct and a destroy behaviour, as long as the pool has not been
    released, and provided the behaviours themselves come back from every
    call (as every behaviour of this model does), [Get], [Put], [Close]
    and [Release] come back: the code of the pool neither calls a nil
    function, nor sends on or closes a closed or nil channel, nor
    blocks. *)
Theorem calls_on_open_pool_come_back
  (poolConfig : @Config R) (w0 : world) (f : factoryT) (g : closeT) s :
  reachable clock max_chan poolConfig w0 s ->
  Factory poolConfig = Some f ->
  Close poolConfig = Some g ->
  conns (self s) <> None ->
  (exists x s', Get clock s = Ret (x, s')) /\
  (forall c, exists e s', Put clock c s = Ret (e, s')) /\
  (forall c, exists e s', poolClose c s = Ret (e, s')) /\
  (exists s', Release s = Ret (tt, s')).
Proof.
  intros Hreach Hf Hg Hopen.
  apply reachable_settled in Hreach. unfold settled in Hreach.
  destruct (conns (self s)) as [ch|] eqn:Hch; [|congruence].
  destruct Hreach as ((Hcl & _ & Hfac & Hclo) & _).
  rewrite Hf in Hfac. rewrite Hg in Hclo.
  assert (Hclose : forall c, exists e s', poolClose c s = Ret (e, s')).
  { intros c. unfold poolClose. destruct c; unmonad;
      try rewrite Hclo; simpl; eauto. }
  split; [|split; [|split]].
  - rewrite (Get_on_open s ch Hch). apply (Get_loop_returns f g); assumption.
  - intros c.
    destruct (Z.of_nat (List.length (buf ch)) <? cap ch) eqn:Hlt.
    + destruct c as [|r|c0 t0]; [simpl; unfold ret; eauto| |];
        rewrite (Put_queues _ s ch);
        try (split; assumption); try discriminate;
        try (apply Z.ltb_lt; exact Hlt); eauto.
    + destruct c as [|r|c0 t0]; [simpl; unfold ret; eauto| |];
        rewrite (Put_sheds g _ s ch);
        try (split; assumption); try discriminate;
        try (apply Z.ltb_ge; exact Hlt); eauto.
  - exact Hclose.
  - rewrite (Release_value g s ch); [eauto|split; assumption|assumption].
Qed.

(** ** The constructor, start to end *)

Lemma destroy_calls_length (g : closeT) q :
  forall hist, List.length (destroy_calls g hist q) = List.length q.
Proof.
  induction q as [|w q IH]; intros hist; simpl; [reflexivity|].
  rewrite IH. reflexivity.
Qed.

Lemma entries_of_length (built : list (@event R)) :
  forall n, Forall is_built built ->
            List.length (entries_of clock built n) = List.length built.
Proof.
  induction built as [|ev built IH]; intros n Hb; simpl; [reflexivity|].
  inversion Hb as [|ev' l' Hev Hrest]; subst.
  destruct ev as [v e|a e]; [|contradiction].
  simpl. rewrite IH by assumption. reflexivity.
Qed.

Lemma New_loop_success (f : factoryT) (todo : nat) :
  (forall hist, snd (f hist) = None) ->
  forall s ch,
    open_on s ch ->
    factory (self s) = Some f ->
    Z.of_nat (List.length (buf ch)) + Z.of_nat todo <= cap ch ->
    exists built,
      Forall is_built built /\
      List.length built = todo /\
      New_loop clock todo s =
      Ret (None,
           {| self := with_conns (self s)
                        (Some (with_buf ch
                                 (buf ch
                                  ++ entries_of clock built (ticks (wld s)))));
              wld := {| ticks := todo + ticks (wld s);
                        calls := calls (wld s) ++ built |} |}).
Proof.
  intros Hok. induction todo as [|todo IH]; intros s ch [Hch Hopen] Hf Hroom.
  - exists []. split; [constructor|]. split; [reflexivity|].
    simpl. unfold ret. rewrite !app_nil_r, with_buf_same, <- Hch.
    rewrite with_conns_same. destruct s as [p [n h]]; reflexivity.
  - set (r := f (calls (wld s))).
    set (x := {| conn := fst r; t := clock (ticks (wld s)) |}).
    set (s3 := {| self := with_conns (self s)
                            (Some (with_buf ch (buf ch ++ [x])));
                  wld := {| ticks := S (ticks (wld s));
                            calls := calls (wld s)
                                     ++ [Constructed (fst r) None] |} |}).
    assert (Hlt : (Z.of_nat (List.length (buf ch)) <? cap ch) = true)
      by (apply Z.ltb_lt; lia).
    assert (Hstep : New_loop clock (S todo) s = New_loop clock todo s3).
    { simpl. unfold bind at 1 2. unfold get_pool. rewrite Hf. simpl.
      rewrite (Hok (calls (wld s))).
      unfold bind at 1. unfold time_Now. unfold bind at 1.
      unfold send, bind, get_pool. simpl. rewrite Hch. simpl.
      rewrite Hopen, Hlt. reflexivity. }
    destruct (IH s3 (with_buf ch (buf ch ++ [x]))) as (built & Hb & Hlen & HN).
    + split; [reflexivity|exact Hopen].
    + exact Hf.
    + simpl. rewrite length_app. simpl. lia.
    + exists (Constructed (fst r) None :: built).
      split; [constructor; [exact I|exact Hb]|].
      split; [simpl; rewrite Hlen; reflexivity|].
      rewrite Hstep, HN. simpl. rewrite <- !app_assoc. simpl.
      rewrite Nat.add_succ_r. reflexivity.
Qed.

(** X7.  With [0 < InitCap <= MaxCap], [MaxCap] within what [make]
    accepts, and a construct behaviour that never answers an error, [NewChannelPool] comes back with a pool and no error
    after exactly [InitCap] construct calls: the queue holds the values
    built, in the order built, each stamped with its own reading of the
    clock, and [Len] answers [InitCap]. *)
Theorem NewChannelPool_fills_InitCap
  (poolConfig : @Config R) (w0 : world) (f : factoryT) :
  0 < InitCap poolConfig <= MaxCap poolConfig ->
  MaxCap poolConfig <= max_chan ->
  Factory poolConfig = Some f ->
  (forall hist, snd (f hist) = None) ->
  exists built p (w1 : world),
    NewChannelPool clock max_chan poolConfig w0 = Ret ((Some p, None), w1) /\
    Forall is_built built /\
    Z.of_nat (List.length built) = InitCap poolConfig /\
    calls w1 = calls w0 ++ built /\
    ticks w1 = (List.length built + ticks w0)%nat /\
    conns p = Some {| buf := entries_of clock built (ticks w0);
                      cap := MaxCap poolConfig;
                      closed := false |} /\
    Len {| self := p; wld := w1 |} =
    Ret (InitCap poolConfig, {| self := p; wld := w1 |}).
Proof.
  intros Hcap Hmax Hf Hok. rewrite NewChannelPool_valid by assumption.
  match goal with
  | |- context [New_loop clock ?n ?s0] =>
      destruct (New_loop_success f n Hok s0
                  {| buf := []; cap := MaxCap poolConfig; closed := false |})
        as (built & Hb & Hlen & HN)
  end.
  - split; reflexivity.
  - exact Hf.
  - simpl. rewrite Z2Nat.id; lia.
  - rewrite HN. simpl. do 3 eexists. split; [reflexivity|].
    split; [exact Hb|]. split; [rewrite Hlen, Z2Nat.id; lia|].
    split; [reflexivity|]. split; [rewrite Hlen; reflexivity|].
    split; [reflexivity|].
    rewrite Len_value. simpl.
    rewrite entries_of_length by exact Hb. rewrite Hlen, Z2Nat.id by lia.
    reflexivity.
Qed.

(** X8.  With valid capacities, [MaxCap] within what [make] accepts, and
    no construct behaviour (a nil [Factory]), [NewChannelPool] panics on
    its first construct call. *)
Theorem NewChannelPool_without_factory_panics
  (poolConfig : @Config R) (w0 : world) :
  0 < InitCap poolConfig <= MaxCap poolConfig ->
  MaxCap poolConfig <= max_chan ->
  Factory poolConfig = None ->
  NewChannelPool clock max_chan poolConfig w0 = Panic nil_func_call.
Proof.
  intros Hcap Hmax Hf. rewrite NewChannelPool_valid by assumption.
  destruct (Z.to_nat (InitCap poolConfig)) as [|n] eqn:En; [lia|].
  simpl. unfold bind, get_pool. simpl. rewrite Hf. reflexivity.
Qed.

Lemma New_loop_rollback (g : closeT) (todo : nat) :
  forall s ch e s',
    open_on s ch ->
    close (self s) = Some g ->
    New_loop clock todo s = Ret (Some e, s') ->
    exists built v,
      Forall is_built built /\
      (List.length built < todo)%nat /\
      conns (self s') = None /\
      calls (wld s') =
      calls (wld s) ++ built ++ Constructed v (Some e)
        :: destroy_calls g (calls (wld s) ++ built ++ [Constructed v (Some e)])
             (buf ch ++ entries_of clock built (ticks (wld s))).
Proof.
  induction todo as [|todo IH]; intros s ch e s' [Hch Hopen] Hg H;
    simpl in H.
  - unfold ret in H. inversion H.
  - unfold bind at 1 2 in H. unfold get_pool in H.
    destruct (call_factory (factory (self s)) s) as [[r s1]| |] eqn:E;
      try discriminate.
    destruct (factory (self s)) as [f|] eqn:Hf; [|discriminate].
    simpl in E. inversion E; subst r s1. clear E.
    destruct (snd (f (calls (wld s)))) as [err|] eqn:Herr.
    + unfold bind in H.
      rewrite (Release_value g _ ch) in H;
        [|split; [exact Hch|exact Hopen]|exact Hg].
      unfold ret in H. inversion H; subst. simpl.
      exists [], (fst (f (calls (wld s)))).
      split; [constructor|]. split; [simpl; lia|]. split; [reflexivity|].
      simpl. rewrite app_nil_r, <- app_assoc. reflexivity.
    + unfold send in H. unmonad_in H. simpl in H. rewrite Hch in H.
      rewrite Hopen in H.
      destruct (Z.of_nat (List.length (buf ch)) <? cap ch); [|discriminate].
      simpl in H.
      apply (IH _ (with_buf ch
                     (buf ch ++ [{| conn := fst (f (calls (wld s)));
                                    t := clock (ticks (wld s)) |}])))
        in H; [|split; [reflexivity|exact Hopen]|exact Hg].
      destruct H as (built & v & Hb & Hlen & Hc & H).
      exists (Constructed (fst (f (calls (wld s)))) None :: built), v.
      split; [constructor; [exact I|exact Hb]|].
      split; [simpl; lia|]. split; [exact Hc|].
      rewrite H. simpl. rewrite <- !app_assoc. reflexivity.
Qed.

(** X9.  When [NewChannelPool], given a valid configuration with a destroy
    behaviour, answers an error, it answers no pool, the error is the one
    of the first construct call that failed, and every entry queued before
    that call has been handed, as the [*idleConn] it is, to the destroy
    behaviour, in queue order: as many destroy calls as values built. *)
Theorem NewChannelPool_failed_start_releases
  (poolConfig : @Config R) (w0 w1 : world) (g : closeT) op e :
  0 < InitCap poolConfig <= MaxCap poolConfig ->
  Close poolConfig = Some g ->
  NewChannelPool clock max_chan poolConfig w0 = Ret ((op, Some e), w1) ->
  op = None /\
  exists built v,
    Forall is_built built /\
    Z.of_nat (List.length built) < InitCap poolConfig /\
    calls w1 =
    calls w0 ++ built ++ Constructed v (Some e)
      :: destroy_calls g (calls w0 ++ built ++ [Constructed v (Some e)])
           (entries_of clock built (ticks w0)) /\
    List.length (destroy_calls g (calls w0 ++ built ++ [Constructed v (Some e)])
                   (entries_of clock built (ticks w0))) = List.length built.
Proof.
  intros Hcap Hg H.
  destruct (NewChannelPool_returned _ _ _ H) as [[_ Hbad]|[_ Hmax]]; [lia|].
  rewrite NewChannelPool_valid in H by assumption.
  match type of H with
  | match New_loop clock ?n ?s0 with _ => _ end = _ =>
      destruct (New_loop clock n s0) as [[[err|] s1]| |] eqn:E;
        try discriminate
  end.
  inversion H; subst. split; [reflexivity|].
  apply (New_loop_rollback g) with
    (ch := {| buf := []; cap := MaxCap poolConfig; closed := false |}) in E;
    [|split; reflexivity|exact Hg].
  destruct E as (built & v & Hb & Hlen & _ & E). simpl in E.
  exists built, v. split; [exact Hb|]. split; [lia|]. split; [exact E|].
  rewrite destroy_calls_length. apply entries_of_length, Hb.
Qed.

(** ** [Get] on an open pool, case by case *)

(** X10.  On an open pool with an empty queue [Get] does not wait: with a
    construct behaviour it calls it once and answers what it answered (the
    nil value when it answered an error), leaving the queue empty; without
    one it panics. *)
Theorem Get_on_empty_queue_builds s ch :
  open_on s ch ->
  buf ch = [] ->
  (forall f : factoryT,
      factory (self s) = Some f ->
      Get clock s =
      Ret (match snd (f (calls (wld s))) with
           | Some err => (VNil, Some err)
           | None => (fst (f (calls (wld s))), None)
           end,
           record (Constructed (fst (f (calls (wld s))))
                     (snd (f (calls (wld s))))) s)) /\
  (factory (self s) = None -> Get clock s = Panic nil_func_call).
Proof.
  intros [Hch Hopen] Hbuf. rewrite (Get_on_open s ch Hch), Hbuf. split.
  - intros f Hf. apply Get_loop_builds; assumption.
  - intros Hf. simpl. rewrite Hopen. unmonad. rewrite Hf. reflexivity.
Qed.

(** X11.  On an open pool [Get] hands over the head of the queue, without
    calling any behaviour, when the timeout is zero or negative (the clock
    is then not read) and also when the head has been idle for no longer
    than the timeout, the bound included. *)
Theorem Get_hands_over_fresh_head s ch w rest :
  open_on s ch ->
  buf ch = w :: rest ->
  idleTimeout (self s) <= 0 \/
  clock (ticks (wld s)) - t w <= idleTimeout (self s) ->
  Get clock s = Ret ((conn w, None), handed s ch rest) /\
  calls (wld (handed s ch rest)) = calls (wld s) /\
  (idleTimeout (self s) <= 0 -> wld (handed s ch rest) = wld s).
Proof.
  intros [Hch _] Hbuf Hfresh.
  rewrite (Get_on_open s ch Hch), Hbuf. split; [|split].
  - apply Get_loop_hands_head. unfold expired. lia.
  - reflexivity.
  - intros H0. unfold handed, looks. apply Z.ltb_ge in H0. rewrite H0.
    destruct s as [p [n h]]; reflexivity.
Qed.

(** X12.  On an open pool with a destroy behaviour, [Get] throws away the
    expired entries [pre] at the head of the queue, one destroy call each,
    in queue order, the clock read once for each, and hands over the first
    entry behind them that has not expired. *)
Theorem Get_skips_expired_prefix (g : closeT) s ch pre w rest :
  open_on s ch ->
  buf ch = pre ++ w :: rest ->
  close (self s) = Some g ->
  all_expired clock (idleTimeout (self s)) (ticks (wld s)) pre ->
  ~ expired (idleTimeout (self s))
      (clock (List.length pre + ticks (wld s))) w ->
  exists s',
    Get clock s = Ret ((conn w, None), s') /\
    conns (self s') = Some (with_buf ch rest) /\
    calls (wld s') = calls (wld s) ++ destroy_calls g (calls (wld s)) pre /\
    List.length (destroy_calls g (calls (wld s)) pre) = List.length pre.
Proof.
  intros [Hch _] Hbuf Hg Hall Hfresh.
  rewrite (Get_on_open s ch Hch), Hbuf.
  destruct pre as [|x pre].
  - simpl app. simpl in Hfresh. rewrite Get_loop_hands_head by assumption.
    eexists. split; [reflexivity|]. split; [reflexivity|].
    simpl. rewrite app_nil_r. auto.
  - rewrite (Get_loop_evicts g) by (assumption || discriminate).
    rewrite Get_loop_hands_head by exact Hfresh.
    eexists. split; [reflexivity|]. split; [reflexivity|].
    split; [reflexivity|]. apply destroy_calls_length.
Qed.

(** X13.  On an open pool with both behaviours whose queue holds nothing
    but expired entries, [Get] destroys them all, one call each, and then
    builds: the construct call is the last call, the queue is left empty,
    and the answer is what the construct behaviour answered. *)
Theorem Get_on_stale_queue_builds (f : factoryT) (g : closeT) s ch :
  open_on s ch ->
  buf ch <> [] ->
  factory (self s) = Some f ->
  close (self s) = Some g ->
  all_expired clock (idleTimeout (self s)) (ticks (wld s)) (buf ch) ->
  exists x s',
    Get clock s = Ret (x, s') /\
    conns (self s') = Some (with_buf ch []) /\
    calls (wld s') =
    calls (wld s) ++ destroy_calls g (calls (wld s)) (buf ch)
    ++ [Constructed
          (fst (f (calls (wld s) ++ destroy_calls g (calls (wld s)) (buf ch))))
          (snd (f (calls (wld s) ++ destroy_calls g (calls (wld s)) (buf ch))))] /\
    x = match snd (f (calls (wld s)
                      ++ destroy_calls g (calls (wld s)) (buf ch))) with
        | Some err => (VNil, Some err)
        | None => (fst (f (calls (wld s)
                           ++ destroy_calls g (calls (wld s)) (buf ch))), None)
        end.
Proof.
  intros [Hch Hopen] Hne Hf Hg Hall.
  rewrite (Get_on_open s ch Hch).
  replace (Get_loop clock (buf ch) ch s)
    with (Get_loop clock (buf ch ++ []) ch s)
    by (rewrite app_nil_r; reflexivity).
  rewrite (Get_loop_evicts g) by assumption.
  rewrite (Get_loop_builds f) by assumption.
  do 2 eexists. split; [reflexivity|]. split; [reflexivity|].
  split; [|reflexivity]. simpl. rewrite <- app_assoc. reflexivity.
Qed.

(** ** Calls in a row *)

(** X14.  [Get] followed by [Put] of the value obtained moves the head of
    the queue to its tail, with a new idle stamp: on an open pool within
    capacity whose head holds a non-nil value and has not expired, the
    queue [w :: rest] becomes [rest] followed by an entry that holds the
    value of [w] and the reading of the clock taken by the [Put]. *)
Theorem Get_then_Put_requeues_at_tail s ch w rest :
  open_on s ch ->
  within_cap ch ->
  buf ch = w :: rest ->
  conn w <> VNil ->
  ~ expired (idleTimeout (self s)) (clock (ticks (wld s))) w ->
  exists s1 s2,
    Get clock s = Ret ((conn w, None), s1) /\
    Put clock (conn w) s1 = Ret (None, s2) /\
    conns (self s2) =
    Some (with_buf ch (rest ++ [{| conn := conn w;
                                  t := clock (ticks (wld s1)) |}])) /\
    calls (wld s2) = calls (wld s).
Proof.
  intros [Hch Hopen] Hcap Hbuf Hconn Hfresh.
  unfold within_cap in Hcap. rewrite Hbuf in Hcap. simpl List.length in Hcap.
  exists (handed s ch rest). eexists.
  split; [rewrite (Get_on_open s ch Hch), Hbuf;
          apply Get_loop_hands_head, Hfresh|].
  split; [apply (Put_queues (conn w) (handed s ch rest) (with_buf ch rest));
          [split; [reflexivity|exact Hopen]|simpl; lia|exact Hconn]|].
  split; reflexivity.
Qed.

Lemma Put_all_queues (cs : list value) :
  forall s ch,
    open_on s ch ->
    Forall (fun c => c <> VNil) cs ->
    Z.of_nat (List.length (buf ch)) + Z.of_nat (List.length cs) <= cap ch ->
    exists s1 xs,
      Put_all clock cs s = Ret (map (fun _ => None) cs, s1) /\
      open_on s1 (with_buf ch (buf ch ++ xs)) /\
      map conn xs = cs /\
      same_settings (self s) (self s1) /\
      calls (wld s1) = calls (wld s).
Proof.
  induction cs as [|c cs IH]; intros s ch [Hch Hopen] Hcs Hroom.
  - exists s, []. simpl. unfold ret. split; [reflexivity|].
    rewrite app_nil_r, with_buf_same.
    split; [split; assumption|]. split; [reflexivity|].
    split; [repeat split|reflexivity].
  - inversion Hcs as [|c' cs' Hc Hrest]; subst. simpl List.length in Hroom.
    set (x := {| conn := c; t := clock (ticks (wld s)) |}).
    set (s0 := {| self := with_conns (self s)
                            (Some (with_buf ch (buf ch ++ [x])));
                  wld := {| ticks := S (ticks (wld s));
                            calls := calls (wld s) |} |}).
    assert (Hstep : Put_all clock (c :: cs) s =
                    bind (Put_all clock cs) (fun es => ret (None :: es)) s0).
    { simpl. unfold bind at 1.
      rewrite (Put_queues c s ch) by (try split; auto; lia). reflexivity. }
    destruct (IH s0 (with_buf ch (buf ch ++ [x])))
      as (s1 & xs & HP & Ho & Hm & Hs & Hcalls).
    + split; [reflexivity|exact Hopen].
    + exact Hrest.
    + simpl. rewrite length_app. simpl. lia.
    + rewrite Hstep. unfold bind. rewrite HP. unfold ret.
      exists s1, (x :: xs).
      split; [reflexivity|]. simpl in Ho. rewrite <- app_assoc in Ho.
      split; [exact Ho|]. split; [simpl; rewrite Hm; reflexivity|].
      split; [exact Hs|exact Hcalls].
Qed.

Lemma Get_many_empties q :
  forall s ch,
    conns (self s) = Some ch ->
    buf ch = q ->
    idleTimeout (self s) <= 0 ->
    Get_many clock (List.length q) s =
    Ret (map (fun w => (conn w, None)) q,
         {| self := with_conns (self s) (Some (with_buf ch [])); wld := wld s |}).
Proof.
  induction q as [|w q IH]; intros s ch Hch Hbuf Hto.
  - simpl. unfold ret. rewrite <- Hbuf, with_buf_same, <- Hch.
    rewrite with_conns_same. destruct s; reflexivity.
  - simpl. unfold bind at 1.
    rewrite (Get_on_open s ch Hch), Hbuf.
    rewrite Get_loop_hands_head by (unfold expired; lia).
    unfold bind.
    rewrite (IH (handed s ch q) (with_buf ch q)); try reflexivity;
      [|exact Hto].
    unfold ret, handed, looks. apply Z.ltb_ge in Hto. rewrite Hto.
    simpl. destruct s as [p [n h]]; reflexivity.
Qed.

(** X15.  The queue is first in, first out.  On an open pool with no
    expiry (timeout zero or negative) and room for them, putting the
    non-nil values [cs] one after the other queues them all, and as many
    [Get]s as there are idle entries then answer first the values that
    were idle before, in their order, and then [cs] in the order put,
    leaving the queue empty, without a single behaviour call. *)
Theorem Put_all_then_Get_many_is_fifo (cs : list value) s ch :
  open_on s ch ->
  idleTimeout (self s) <= 0 ->
  Forall (fun c => c <> VNil) cs ->
  Z.of_nat (List.length (buf ch)) + Z.of_nat (List.length cs) <= cap ch ->
  exists s1 s2,
    Put_all clock cs s = Ret (map (fun _ => None) cs, s1) /\
    Get_many clock (List.length (buf ch) + List.length cs) s1 =
    Ret (map (fun c => (c, None)) (map conn (buf ch) ++ cs), s2) /\
    idle_count s2 = 0 /\
    calls (wld s2) = calls (wld s).
Proof.
  intros Hopen Hto Hcs Hroom.
  destruct (Put_all_queues cs s ch Hopen Hcs Hroom)
    as (s1 & xs & HP & [Hch1 _] & Hm & (_ & _ & _ & Hto1) & Hcalls).
  exists s1. eexists. split; [exact HP|].
  assert (Hlen : (List.length (buf ch) + List.length cs)%nat
                 = List.length (buf ch ++ xs)).
  { rewrite length_app, <- Hm, length_map. reflexivity. }
  rewrite Hlen.
  rewrite (Get_many_empties (buf ch ++ xs) s1 _ Hch1);
    [|reflexivity|rewrite Hto1; exact Hto].
  split; [rewrite <- Hm, <- map_app, map_map; reflexivity|].
  split; [reflexivity|exact Hcalls].
Qed.

(** ** [Release] on an open pool *)

(** X16.  On an open pool with a destroy behaviour [Release] always comes
    back, whatever the destroy calls answer: it makes one destroy call for
    each idle entry, in queue order, does not read the clock, and leaves a
    pool without channel and behaviours, for which [Len] answers 0. *)
Theorem Release_on_open_pool_completes (g : closeT) s ch :
  open_on s ch ->
  close (self s) = Some g ->
  exists s1,
    Release s = Ret (tt, s1) /\
    calls (wld s1) = calls (wld s) ++ destroy_calls g (calls (wld s)) (buf ch) /\
    List.length (destroy_calls g (calls (wld s)) (buf ch))
    = List.length (buf ch) /\
    ticks (wld s1) = ticks (wld s) /\
    conns (self s1) = None /\ factory (self s1) = None /\
    close (self s1) = None /\
    Len s1 = Ret (0, s1).
Proof.
  intros Hopen Hg. rewrite (Release_value g s ch Hopen Hg).
  eexists. split; [reflexivity|]. simpl.
  split; [reflexivity|]. split; [apply destroy_calls_length|].
  repeat (split; [reflexivity|]). reflexivity.
Qed.

(** X17.  On an open pool without a destroy behaviour (a nil [Close] in
    the configuration) [Release] comes back when the queue is empty and
    panics on the first idle entry otherwise. *)
Theorem Release_without_close s ch :
  open_on s ch ->
  close (self s) = None ->
  (buf ch = [] ->
   exists s1, Release s = Ret (tt, s1) /\ conns (self s1) = None /\
              wld s1 = wld s) /\
  (buf ch <> [] -> Release s = Panic nil_func_call).
Proof.
  intros [Hch Hopen] Hg. unfold Release. unmonad. simpl.
  rewrite Hch, Hopen, Hg. split.
  - intros ->. simpl. unfold ret. eexists.
    split; [reflexivity|]. split; reflexivity.
  - intros Hne. destruct (buf ch) as [|w q]; [congruence|]. reflexivity.
Qed.

End Theory.

(** * The code run on the small pool *)

Import Scenario.

(** Runs the code on closed inputs, then compares the outcomes. *)
Ltac by_running := cbv; reflexivity.

(** The constructor fills the queue with [InitCap] entries stamped with the
    clock, and two [Get]s hand them over in queue order. *)
Example NewChannelPool_two :
  NewChannelPool clk lim (config 2 2 numbered) untouched =
  Ret ((Some (self two_idle), None), wld two_idle).
Proof. reflexivity. Qed.

Example Get_Get_two :
  exists s1 s2,
    Get clk two_idle = Ret ((VRes 0%nat, None), s1) /\
    Get clk s1 = Ret ((VRes 1%nat, None), s2) /\
    Len s2 = Ret (0, s2).
Proof. do 2 eexists. split; [by_running|]. split; by_running. Qed.

Example Put_nil_is_refused :
  Put clk VNil two_idle = Ret (Some (ErrorsNew "conn is now"), two_idle) /\
  poolClose VNil two_idle = Ret (Some (ErrorsNew "conn is nil"), two_idle).
Proof. split; reflexivity. Qed.

(** A failed start releases what was built: the one entry built before the
    failure reaches the destroy behaviour, wrapped. *)
Example NewChannelPool_failed_start :
  NewChannelPool clk lim
    (config 2 2 (fun hist => match hist with
                             | [] => (VRes 0%nat, None)
                             | _ => (VNil, Some (ErrCaller 2))
                             end)) untouched =
  Ret ((None, Some (ErrCaller 2)),
       {| ticks := 1%nat;
          calls := [Constructed (VRes 0%nat) None;
                    Constructed VNil (Some (ErrCaller 2));
                    Destroyed (VIdle (VRes 0%nat) 100) None] |}).
Proof. reflexivity. Qed.

(** C1 fails on the code.  The claim: a [Put] of a non-nil value after
    [Release] calls the destroy behaviour on it and answers its result,
    without crashing.  The code: [Release] sets the pool's [close] field to
    nil, so the [Put] of the value 7 into the released pool panics on a nil
    function call. *)
Theorem Put_after_Release_panics :
  exists s1,
    Release two_idle = Ret (tt, s1) /\
    Put clk (VRes 7%nat) s1 = Panic nil_func_call.
Proof. eexists. split; by_running. Qed.

(** C2 fails on the code.  The claim: a second [Release] is well defined
    and does not crash.  The code: the first [Release] leaves the channel
    field nil and the second one closes it, which panics. *)
Theorem Release_twice_panics :
  exists s1,
    Release two_idle = Ret (tt, s1) /\
    Release s1 = Panic "close of nil channel".
Proof. eexists. split; by_running. Qed.

(** C3 fails on the code.  The claim: [Release] calls the destroy behaviour
    on the resource stored in each idle entry.  The code: the two destroy
    calls receive the [*idleConn] entries themselves, and neither stored
    resource reaches the destroy behaviour. *)
Theorem Release_destroys_the_wrappers :
  exists s1,
    Release two_idle = Ret (tt, s1) /\
    calls (wld s1) =
    calls (wld two_idle)
    ++ [Destroyed (VIdle (VRes 0%nat) 100) None;
        Destroyed (VIdle (VRes 1%nat) 101) None] /\
    forall e, ~ In (Destroyed (VRes 0%nat) e) (calls (wld s1)) /\
              ~ In (Destroyed (VRes 1%nat) e) (calls (wld s1)).
Proof.
  eexists. split; [by_running|]. split; [by_running|].
  intros e. simpl. split; intros H; repeat destruct H as [H|H];
    try discriminate; exact H.
Qed.

(** C4 fails on the code.  The claim: a [Get] that dequeues an expired
    entry calls the destroy behaviour once on that entry's resource.  The
    code: with a timeout of 5 and the clock at 100, the entry idle since 0
    is evicted and the next one handed over, but the one destroy call
    receives the [*idleConn] entry, not the resource 1 it holds. *)
Theorem Get_destroys_the_wrapper :
  exists s1,
    Get clk (stale quiet_close) = Ret ((VRes 2%nat, None), s1) /\
    calls (wld s1) = [Destroyed (VIdle (VRes 1%nat) 0) None].
Proof. eexists. split; by_running. Qed.

(** C5 fails as stated: the destroy call that [Get] makes on an expired
    entry answers an error, and [Get] answers a resource and no error. *)
Lemma destroy_error_dropped_by_Get :
  exists s1,
    Get clk (stale failing_close) = Ret ((VRes 2%nat, None), s1) /\
    calls (wld s1) = [Destroyed (VIdle (VRes 1%nat) 0) (Some (ErrCaller 1))].
Proof. eexists. split; by_running. Qed.

(** C6 fails as stated: on a reachable open pool with an empty queue and
    no idle timeout, [Get] builds a resource, [Put] queues it, and [Len]
    goes from 0 to 1. *)
Lemma Get_then_Put_grows_empty_queue :
  reachable clk lim (config 1 1 numbered) untouched drained /\
  exists s1 s2,
    Len drained = Ret (0, drained) /\
    Get clk drained = Ret ((VRes 1%nat, None), s1) /\
    Put clk (VRes 1%nat) s1 = Ret (None, s2) /\
    Len s2 = Ret (1, s2).
Proof.
  split.
  - apply (reach_call clk lim _ _
             {| self := pool_of [idle 0 100] 1 numbered quiet_close 0;
                wld := wld drained |} drained CallGet);
      [apply reach_New|]; reflexivity.
  - do 2 eexists. split; [by_running|]. split; [by_running|].
    split; by_running.
Qed.

(** ** Instances *)

Lemma Get_after_Release_is_ErrClose_witness :
  exists s1 s2,
    Release two_idle = Ret (tt, s1) /\
    run_all clk [CallLen; CallGet] s1 = Ret (tt, s2) /\
    Get clk s2 = Ret ((VNil, Some ErrClose), s2).
Proof.
  do 2 eexists. split; [by_running|]. split; [by_running|].
  eapply (Get_after_Release_is_ErrClose clk two_idle _ [CallLen; CallGet]);
    by_running.
Defined.

Lemma NewChannelPool_rejects_bad_config_witness :
  (InitCap (config 3 2 numbered) <= 0 \/ MaxCap (config 3 2 numbered) <= 0 \/
   InitCap (config 3 2 numbered) > MaxCap (config 3 2 numbered)) /\
  NewChannelPool clk lim (config 3 2 numbered) untouched =
  Ret ((None, Some config_error), untouched).
Proof.
  split; [right; right; simpl; lia|].
  apply (NewChannelPool_rejects_bad_config clk lim (config 3 2 numbered) untouched).
  right; right; simpl; lia.
Defined.

Lemma Put_then_Get_returns_the_value_witness :
  (open_on roomy (queue_of [idle 1 0] 3) /\
   Z.of_nat (List.length (buf (queue_of [idle 1 0] 3)))
   < cap (queue_of [idle 1 0] 3) /\
   VRes 7%nat <> VNil) /\
  exists e s1,
    Put clk (VRes 7%nat) roomy = Ret (None, s1) /\
    e = {| conn := VRes 7%nat; t := clk (ticks (wld roomy)) |} /\
    conn e = VRes 7%nat /\
    conns (self s1) =
    Some (with_buf (queue_of [idle 1 0] 3)
            (buf (queue_of [idle 1 0] 3) ++ [e])) /\
    conns (self s1) =
    Some {| buf := buf (queue_of [idle 1 0] 3) ++ [e];
            cap := cap (queue_of [idle 1 0] 3);
            closed := false |} /\
    (none_expired clk (idleTimeout (self s1)) (ticks (wld s1))
       (buf (queue_of [idle 1 0] 3) ++ [e]) ->
     exists s3,
       Get_many clk (S (List.length (buf (queue_of [idle 1 0] 3)))) s1 =
       Ret (map (fun w => (conn w, None)) (buf (queue_of [idle 1 0] 3))
            ++ [(VRes 7%nat, None)], s3) /\
       idle_count s3 = 0) /\
    ((buf (queue_of [idle 1 0] 3) = [] \/ close (self s1) <> None) ->
     all_expired clk (idleTimeout (self s1)) (ticks (wld s1))
       (buf (queue_of [idle 1 0] 3)) ->
     ~ expired (idleTimeout (self s1))
         (clk (List.length (buf (queue_of [idle 1 0] 3)) + ticks (wld s1))) e ->
     exists s3,
       Get clk s1 = Ret ((VRes 7%nat, None), s3) /\ idle_count s3 = 0) /\
    forall s2 ch2 pre rest,
      open_on s2 ch2 ->
      buf ch2 = pre ++ e :: rest ->
      (pre = [] \/ close (self s2) <> None) ->
      all_expired clk (idleTimeout (self s2)) (ticks (wld s2)) pre ->
      ~ expired (idleTimeout (self s2))
          (clk (List.length pre + ticks (wld s2))) e ->
      exists s3,
        Get clk s2 = Ret ((VRes 7%nat, None), s3) /\
        conns (self s3) = Some (with_buf ch2 rest).
Proof.
  assert (H1 : open_on roomy (queue_of [idle 1 0] 3)) by (split; reflexivity).
  assert (H2 : Z.of_nat (List.length (buf (queue_of [idle 1 0] 3)))
               < cap (queue_of [idle 1 0] 3)) by (simpl; lia).
  assert (H3 : @VRes nat 7%nat <> VNil) by discriminate.
  split; [auto|].
  exact (Put_then_Get_returns_the_value clk (VRes 7%nat) roomy
           (queue_of [idle 1 0] 3) H1 H2 H3).
Defined.

(** The round trip run: the value put comes back from the second [Get],
    behind the value that was idle before. *)
Example Put_then_Get_many_runs :
  exists s1 s3,
    Put clk (VRes 7%nat) roomy = Ret (None, s1) /\
    Get_many clk 2 s1 =
    Ret ([(VRes 1%nat, None); (VRes 7%nat, None)], s3) /\
    Len s3 = Ret (0, s3).
Proof. do 2 eexists. split; [by_running|]. split; by_running. Qed.

Lemma Get_then_Put_restores_Len_witness :
  exists s1 s2 n,
    Get clk two_idle = Ret ((conn (idle 0 100), None), s1) /\
    Put clk (conn (idle 0 100)) s1 = Ret (None, s2) /\
    Len two_idle = Ret (n, two_idle) /\
    Len s2 = Ret (n, s2).
Proof.
  apply (Get_then_Put_restores_Len clk two_idle
           (queue_of [idle 0 100; idle 1 101] 2) (idle 0 100) [idle 1 101]).
  - split; reflexivity.
  - unfold within_cap; simpl; lia.
  - reflexivity.
  - discriminate.
  - unfold expired; simpl; lia.
Defined.

Lemma Len_within_MaxCap_and_Put_sheds_witness :
  reachable clk lim (config 2 2 numbered) untouched two_idle /\
  (exists n, Len two_idle = Ret (n, two_idle) /\ 0 <= n <= 2) /\
  Put clk (VRes 7%nat) two_idle =
  Ret (None,
       {| self := self two_idle;
          wld := {| ticks := 3%nat;
                    calls := calls (wld two_idle)
                             ++ [Destroyed (VRes 7%nat) None] |} |}).
Proof.
  assert (Hreach : reachable clk lim (config 2 2 numbered) untouched two_idle)
    by (apply (reach_New clk lim _ _ (self two_idle) (wld two_idle)); reflexivity).
  destruct (Len_within_MaxCap_and_Put_sheds clk lim (config 2 2 numbered)
              untouched two_idle Hreach) as [HLen HPut].
  split; [exact Hreach|]. split; [exact HLen|].
  apply (HPut (queue_of [idle 0 100; idle 1 101] 2) (VRes 7%nat) quiet_close).
  - split; reflexivity.
  - reflexivity.
  - discriminate.
  - reflexivity.
Defined.

Lemma behaviour_errors_handed_to_caller_witness :
  (exists s',
      Get clk barren = Ret ((VNil, Some (ErrCaller 2)), s') /\
      exists ds,
        Forall is_destroy ds /\
        (calls (wld s') = calls (wld barren) ++ ds \/
         exists v',
           calls (wld s')
           = calls (wld barren) ++ ds ++ [Constructed v' (Some (ErrCaller 2))])) /\
  (exists s',
      Put clk (VRes 7%nat) hard_to_close = Ret (Some (ErrCaller 1), s') /\
      (calls (wld s') = calls (wld hard_to_close) \/
       calls (wld s')
       = calls (wld hard_to_close)
         ++ [Destroyed (VRes 7%nat) (Some (ErrCaller 1))])) /\
  (exists s',
      poolClose (VRes 7%nat) hard_to_close = Ret (Some (ErrCaller 1), s') /\
      (calls (wld s') = calls (wld hard_to_close) \/
       calls (wld s')
       = calls (wld hard_to_close)
         ++ [Destroyed (VRes 7%nat) (Some (ErrCaller 1))])) /\
  (exists w1 : @world nat,
      NewChannelPool clk lim (config 2 2 second_fails) untouched
      = Ret ((None, Some (ErrCaller 2)), w1) /\
      exists built,
        Forall is_built built /\
        (calls w1 = calls untouched ++ built \/
         exists v' e ds,
           Some (ErrCaller 2) = Some e /\
           @None (@channelPool nat) = None /\
           Forall is_destroy ds /\
           calls w1
           = calls untouched ++ built ++ Constructed v' (Some e) :: ds)) /\
  (exists op oe (w1 : @world nat),
      NewChannelPool clk lim (config 2 2 second_fails) untouched
      = Ret ((op, oe), w1)).
Proof.
  destruct (@behaviour_errors_handed_to_caller nat clk lim)
    as (HGet & HPut & HClose & HNew & HBack).
  split; [|split; [|split; [|split]]].
  - eexists. split; [by_running|].
    apply (HGet barren VNil (Some (ErrCaller 2))). by_running.
  - eexists. split; [by_running|].
    apply (HPut (VRes 7%nat) hard_to_close). by_running.
  - eexists. split; [by_running|].
    apply (HClose (VRes 7%nat) hard_to_close). by_running.
  - eexists. split; [by_running|].
    apply (HNew (config 2 2 second_fails) untouched). by_running.
  - apply (HBack (config 2 2 second_fails) untouched second_fails quiet_close).
    + simpl; lia.
    + vm_compute; discriminate.
    + reflexivity.
    + reflexivity.
Defined.

(** ** Instances of the further properties *)

Lemma released_pool_is_inert_witness :
  exists s1 s2,
    Release two_idle = Ret (tt, s1) /\
    run_all clk [CallLen; CallGet; CallPut VNil; CallClose VNil] s1
    = Ret (tt, s2) /\
    s2 = s1 /\ Len s2 = Ret (0, s2).
Proof.
  do 2 eexists. split; [by_running|]. split; [by_running|].
  eapply (released_pool_is_inert clk two_idle _
            [CallLen; CallGet; CallPut VNil; CallClose VNil]); by_running.
Defined.

Lemma Get_shrinks_the_queue_witness :
  exists x s',
    Get clk two_idle = Ret (x, s') /\
    idle_count s' <= idle_count two_idle /\
    (0 < idle_count two_idle -> idle_count s' < idle_count two_idle).
Proof.
  do 2 eexists. split; [by_running|].
  eapply (Get_shrinks_the_queue clk two_idle). by_running.
Defined.


Lemma Put_adds_at_most_one_witness :
  exists e s',
    Put clk (VRes 7%nat) drained = Ret (e, s') /\
    (idle_count s' = idle_count drained \/
     (idle_count s' = idle_count drained + 1 /\ e = None /\
      exists ch, conns (self drained) = Some ch /\ idle_count drained < cap ch)).
Proof.
  do 2 eexists. split; [by_running|].
  eapply (Put_adds_at_most_one clk (VRes 7%nat) drained). by_running.
Defined.

Lemma reachable_pool_is_settled_witness :
  reachable clk lim (config 2 2 numbered) untouched two_idle /\
  idleTimeout (self two_idle) = IdleTimeout (config 2 2 numbered) /\
  alive (self two_idle) = None /\
  (forall ch,
      conns (self two_idle) = Some ch ->
      closed ch = false /\ cap ch = MaxCap (config 2 2 numbered) /\
      factory (self two_idle) = Factory (config 2 2 numbered) /\
      close (self two_idle) = Close (config 2 2 numbered)) /\
  (conns (self two_idle) = None ->
   factory (self two_idle) = None /\ close (self two_idle) = None).
Proof.
  assert (Hreach : reachable clk lim (config 2 2 numbered) untouched two_idle)
    by (apply (reach_New clk lim _ _ (self two_idle) (wld two_idle)); reflexivity).
  split; [exact Hreach|].
  exact (reachable_pool_is_settled clk lim (config 2 2 numbered) untouched
           two_idle Hreach).
Defined.

Lemma calls_on_open_pool_come_back_witness :
  (exists x s', Get clk two_idle = Ret (x, s')) /\
  (forall c, exists e s', Put clk c two_idle = Ret (e, s')) /\
  (forall c, exists e s', poolClose c two_idle = Ret (e, s')) /\
  (exists s', Release two_idle = Ret (tt, s')).
Proof.
  apply (calls_on_open_pool_come_back clk lim (config 2 2 numbered) untouched
           numbered quiet_close two_idle).
  - apply (reach_New clk lim _ _ (self two_idle) (wld two_idle)); reflexivity.
  - reflexivity.
  - reflexivity.
  - discriminate.
Defined.

Lemma NewChannelPool_fills_InitCap_witness :
  exists built p (w1 : @world nat),
    NewChannelPool clk lim (config 2 2 numbered) untouched
    = Ret ((Some p, None), w1) /\
    Forall is_built built /\
    Z.of_nat (List.length built) = InitCap (config 2 2 numbered) /\
    calls w1 = calls untouched ++ built /\
    ticks w1 = (List.length built + ticks untouched)%nat /\
    conns p = Some {| buf := entries_of clk built (ticks untouched);
                      cap := MaxCap (config 2 2 numbered);
                      closed := false |} /\
    Len {| self := p; wld := w1 |} =
    Ret (InitCap (config 2 2 numbered), {| self := p; wld := w1 |}).
Proof.
  apply (NewChannelPool_fills_InitCap clk lim (config 2 2 numbered) untouched
           numbered).
  - simpl; lia.
  - vm_compute; discriminate.
  - reflexivity.
  - intros hist; reflexivity.
Defined.

Lemma NewChannelPool_without_factory_panics_witness :
  NewChannelPool clk lim config_without_factory untouched = Panic nil_func_call.
Proof.
  apply (NewChannelPool_without_factory_panics clk lim config_without_factory
           untouched).
  - simpl; lia.
  - vm_compute; discriminate.
  - reflexivity.
Defined.

Lemma NewChannelPool_failed_start_releases_witness :
  exists w1 : @world nat,
    NewChannelPool clk lim (config 2 2 second_fails) untouched
    = Ret ((None, Some (ErrCaller 2)), w1) /\
    exists built v,
      Forall is_built built /\
      Z.of_nat (List.length built) < InitCap (config 2 2 second_fails) /\
      calls w1 =
      calls untouched ++ built ++ Constructed v (Some (ErrCaller 2))
        :: destroy_calls quiet_close
             (calls untouched ++ built ++ [Constructed v (Some (ErrCaller 2))])
             (entries_of clk built (ticks untouched)) /\
      List.length
        (destroy_calls quiet_close
           (calls untouched ++ built ++ [Constructed v (Some (ErrCaller 2))])
           (entries_of clk built (ticks untouched))) = List.length built.
Proof.
  eexists. split; [by_running|].
  eapply (NewChannelPool_failed_start_releases clk lim (config 2 2 second_fails)
            untouched _ quiet_close None (ErrCaller 2)).
  - simpl; lia.
  - reflexivity.
  - by_running.
Defined.

Lemma Get_on_empty_queue_builds_witness :
  (forall f : factoryT,
      factory (self drained) = Some f ->
      Get clk drained =
      Ret (match snd (f (calls (wld drained))) with
           | Some err => (VNil, Some err)
           | None => (fst (f (calls (wld drained))), None)
           end,
           record (Constructed (fst (f (calls (wld drained))))
                     (snd (f (calls (wld drained))))) drained)) /\
  (factory (self drained) = None -> Get clk drained = Panic nil_func_call).
Proof.
  apply (Get_on_empty_queue_builds clk drained (queue_of [] 1)).
  - split; reflexivity.
  - reflexivity.
Defined.

Lemma Get_hands_over_fresh_head_witness :
  Get clk on_the_bound
  = Ret ((conn (idle 1 0), None),
         handed on_the_bound (queue_of [idle 1 0] 2) []) /\
  calls (wld (handed on_the_bound (queue_of [idle 1 0] 2) []))
  = calls (wld on_the_bound) /\
  (idleTimeout (self on_the_bound) <= 0 ->
   wld (handed on_the_bound (queue_of [idle 1 0] 2) []) = wld on_the_bound).
Proof.
  apply (Get_hands_over_fresh_head clk on_the_bound (queue_of [idle 1 0] 2)
           (idle 1 0) []).
  - split; reflexivity.
  - reflexivity.
  - right. vm_compute. discriminate.
Defined.

Lemma Get_skips_expired_prefix_witness :
  exists s',
    Get clk (stale failing_close) = Ret ((conn (idle 2 200), None), s') /\
    conns (self s')
    = Some (with_buf (queue_of [idle 1 0; idle 2 200] 2) []) /\
    calls (wld s')
    = calls (wld (stale failing_close))
      ++ destroy_calls failing_close (calls (wld (stale failing_close)))
           [idle 1 0] /\
    List.length (destroy_calls failing_close
                   (calls (wld (stale failing_close))) [idle 1 0])
    = List.length [idle 1 0].
Proof.
  apply (Get_skips_expired_prefix clk failing_close (stale failing_close)
           (queue_of [idle 1 0; idle 2 200] 2) [idle 1 0] (idle 2 200) []).
  - split; reflexivity.
  - reflexivity.
  - reflexivity.
  - split; [split; reflexivity|exact I].
  - intros [_ H]. vm_compute in H. discriminate.
Defined.

Lemma Get_on_stale_queue_builds_witness :
  exists x s',
    Get clk all_stale = Ret (x, s') /\
    conns (self s') = Some (with_buf (queue_of [idle 1 0] 2) []) /\
    calls (wld s') =
    calls (wld all_stale)
    ++ destroy_calls quiet_close (calls (wld all_stale))
         (buf (queue_of [idle 1 0] 2))
    ++ [Constructed
          (fst (numbered (calls (wld all_stale)
                          ++ destroy_calls quiet_close (calls (wld all_stale))
                               (buf (queue_of [idle 1 0] 2)))))
          (snd (numbered (calls (wld all_stale)
                          ++ destroy_calls quiet_close (calls (wld all_stale))
                               (buf (queue_of [idle 1 0] 2)))))] /\
    x = match snd (numbered (calls (wld all_stale)
                             ++ destroy_calls quiet_close
                                  (calls (wld all_stale))
                                  (buf (queue_of [idle 1 0] 2)))) with
        | Some err => (VNil, Some err)
        | None => (fst (numbered (calls (wld all_stale)
                                  ++ destroy_calls quiet_close
                                       (calls (wld all_stale))
                                       (buf (queue_of [idle 1 0] 2)))), None)
        end.
Proof.
  apply (Get_on_stale_queue_builds clk numbered quiet_close all_stale
           (queue_of [idle 1 0] 2)).
  - split; reflexivity.
  - discriminate.
  - reflexivity.
  - reflexivity.
  - split; [split; reflexivity|exact I].
Defined.

Lemma Get_then_Put_requeues_at_tail_witness :
  exists s1 s2,
    Get clk two_idle = Ret ((conn (idle 0 100), None), s1) /\
    Put clk (conn (idle 0 100)) s1 = Ret (None, s2) /\
    conns (self s2) =
    Some (with_buf (queue_of [idle 0 100; idle 1 101] 2)
            ([idle 1 101] ++ [{| conn := conn (idle 0 100);
                                 t := clk (ticks (wld s1)) |}])) /\
    calls (wld s2) = calls (wld two_idle).
Proof.
  apply (Get_then_Put_requeues_at_tail clk two_idle
           (queue_of [idle 0 100; idle 1 101] 2) (idle 0 100) [idle 1 101]).
  - split; reflexivity.
  - unfold within_cap; simpl; lia.
  - reflexivity.
  - discriminate.
  - unfold expired; simpl; lia.
Defined.

Lemma Put_all_then_Get_many_is_fifo_witness :
  exists s1 s2,
    Put_all clk [VRes 7%nat; VRes 8%nat] roomy
    = Ret (map (fun _ => None) [@VRes nat 7%nat; VRes 8%nat], s1) /\
    Get_many clk (List.length (buf (queue_of [idle 1 0] 3))
                  + List.length [@VRes nat 7%nat; VRes 8%nat]) s1 =
    Ret (map (fun c => (c, None))
           (map conn (buf (queue_of [idle 1 0] 3))
            ++ [VRes 7%nat; VRes 8%nat]), s2) /\
    idle_count s2 = 0 /\
    calls (wld s2) = calls (wld roomy).
Proof.
  apply (Put_all_then_Get_many_is_fifo clk [VRes 7%nat; VRes 8%nat] roomy
           (queue_of [idle 1 0] 3)).
  - split; reflexivity.
  - simpl; lia.
  - repeat constructor; discriminate.
  - simpl; lia.
Defined.

Lemma Release_on_open_pool_completes_witness :
  exists s1,
    Release hard_to_close = Ret (tt, s1) /\
    calls (wld s1)
    = calls (wld hard_to_close)
      ++ destroy_calls failing_close (calls (wld hard_to_close))
           (buf (queue_of [idle 1 0; idle 2 0] 2)) /\
    List.length (destroy_calls failing_close (calls (wld hard_to_close))
                   (buf (queue_of [idle 1 0; idle 2 0] 2)))
    = List.length (buf (queue_of [idle 1 0; idle 2 0] 2)) /\
    ticks (wld s1) = ticks (wld hard_to_close) /\
    conns (self s1) = None /\ factory (self s1) = None /\
    close (self s1) = None /\
    Len s1 = Ret (0, s1).
Proof.
  apply (Release_on_open_pool_completes failing_close hard_to_close
           (queue_of [idle 1 0; idle 2 0] 2)).
  - split; reflexivity.
  - reflexivity.
Defined.

Lemma Release_without_close_witness :
  (buf (queue_of [idle 1 0] 2) = [] ->
   exists s1, Release (without_close [idle 1 0]) = Ret (tt, s1) /\
              conns (self s1) = None /\
              wld s1 = wld (without_close [idle 1 0])) /\
  (buf (queue_of [idle 1 0] 2) <> [] ->
   Release (without_close [idle 1 0]) = Panic nil_func_call).
Proof.
  apply (Release_without_close (without_close [idle 1 0])
           (queue_of [idle 1 0] 2)).
  - split; reflexivity.
  - reflexivity.
Defined.
